(** * Template matching by integral images (tpl/tpl.cpp)

    A shallow embedding of [tpl::integral] and of [main] in tpl/tpl.cpp, and
    the properties of the needle-in-haystack search proved about it; then
    the walk over files and directories of the face detector (class
    [Reader]) and the loop over the corners of a contour of the shape finder
    (function [find]).

    Conventions of the embedding:
    - [int] is a 32-bit two's complement integer, kept as a [Z] in
      [-2^31, 2^31); every arithmetic operation that can leave that range is
      followed by [wrap32].  [unsigned long long] is a [Z] in [0, 2^64).
    - [uchar] is [Byte.byte]; a [Vec3b] holds three of them.
    - Dimensions, loop counters and coordinates are [int]s that stay in
      range; they are plain [Z].
    - An 8-bit 3-channel [cv::Mat] is read only: it is its [rows], [cols] and
      the accessor [at<Vec3b>(Point(x, y))].
    - The [CV_32S] matrix written by [tpl::integral] is a finite map from
      (row, column) to [int]; [create] leaves every cell unwritten, and reading
      a cell that was never written has no result ([None]).
    - A [float] is an IEEE 754 binary32 number, kept as the rational it
      stands for; every conversion to [float] and every operation on [float]s
      rounds to the nearest [float], a tie going to the even significand
      ([round24]), and no operation is carried out in a wider format. *)
From Stdlib Require Import ZArith QArith Qround Qabs Qpower Lia Lqa List Sorted Strings.Byte.

From stdpp Require Import gmap list strings.

Local Open Scope Z_scope.

(** * The program *)

(** ** Machine integers *)

Definition INT_MAX : Z := 2147483647.

Definition wrap32 (z : Z) : Z := (z + 2147483648) mod 4294967296 - 2147483648.

Definition add32 (a b : Z) : Z := wrap32 (a + b).

Definition sub32 (a b : Z) : Z := wrap32 (a - b).

Definition mul32 (a b : Z) : Z := wrap32 (a * b).

(** [abs] of <cstdlib> on an [int]. *)
Definition abs32 (a : Z) : Z := wrap32 (Z.abs a).

(** Conversion to [unsigned long long]. *)
Definition to_ull (z : Z) : Z := z mod 18446744073709551616.

(** Value of an [uchar] after integral promotion. *)
Definition uc (b : byte) : Z := Z.of_N (Byte.to_N b).

(** ** [float]

    The finite [float]s are the rationals [m * 2^e] with [|m| < 2^24] and
    [-149 <= e]; they stay below 2^128 in magnitude, which the values of the
    program, [int]s and quotients and differences of [int]s, never reach.
    The program divides by [max]; where [max] is 0 (a needle of a multiple of
    2^32 pixels) its quotient is an infinity or not a number, which is no
    rational: the statements on the value of [result] leave that case out. *)

(** The nearest integer, a tie going to the even one. *)
Definition rne (q : Q) : Z :=
  let f := Qfloor q in
  match (q - inject_Z f ?= 1 # 2)%Q with
  | Lt => f
  | Eq => if Z.even f then f else f + 1
  | Gt => f + 1
  end.

(** The exponent of the largest power of two that is at most [q], for
    [0 < q]. *)
Definition ilog2 (q : Q) : Z :=
  let k := Z.log2 (Qnum q) - Z.log2 (Zpos (Qden q)) in
  if Qle_bool (2 ^ k) q then k else k - 1.

(** The exponent of the last place of the [float]s around [q]: 24
    significant bits, and no bit below 2^-149. *)
Definition ulp_exp (q : Q) : Z := Z.max (ilog2 (Qabs q) - 23) (-149).

(** Rounding to [float]: the nearest multiple of the last place, a tie going
    to the even multiple; the result is in lowest terms. *)
Definition round24 (q : Q) : Q :=
  if Qeq_bool q 0 then 0%Q
  else Qred (inject_Z (rne (q / 2 ^ ulp_exp q)) * 2 ^ ulp_exp q).

(** [float(z)], and the conversion of an [int] operand of a [float]
    operation. *)
Definition float_of_int (z : Z) : Q := round24 (inject_Z z).

(** [a / b] on [float]s. *)
Definition fdiv (a b : Q) : Q := round24 (a / b).

(** [a - b] on [float]s. *)
Definition fsub (a b : Q) : Q := round24 (a - b).

(** ** Loops

    [for (int i = 0; i < hi; ++i) body], with the state of the loop passed
    from one turn to the next.  [for_] is the loop whose body always has a
    result, [forM] the one whose body reads the written matrix. *)

Fixpoint for_from {S : Type} (n : nat) (i : Z) (body : Z -> S -> S) (s : S) : S :=
  match n with
  | O => s
  | Datatypes.S n' => for_from n' (i + 1) body (body i s)
  end.

Definition for_ {S : Type} (hi : Z) (body : Z -> S -> S) (s : S) : S :=
  for_from (Z.to_nat hi) 0 body s.

Fixpoint forM_from {S : Type} (n : nat) (i : Z) (body : Z -> S -> option S) (s : S)
  : option S :=
  match n with
  | O => Some s
  | Datatypes.S n' =>
      match body i s with
      | Some s' => forM_from n' (i + 1) body s'
      | None => None
      end
  end.

Definition forM {S : Type} (hi : Z) (body : Z -> S -> option S) (s : S) : option S :=
  forM_from (Z.to_nat hi) 0 body s.

(** ** Images *)

(** [cv::Vec3b]: the three channels of a pixel. *)
Module Vec3b.
Record t : Type := mk { val0 : byte; val1 : byte; val2 : byte }.
End Vec3b.

(** The 8-bit, 3-channel matrix [imread] returns. *)
Module Mat3b.
Record t : Type := mk
  { rows : Z;
    cols : Z;
    (** [at_ m x y] is [m.at<Vec3b>(Point(x, y))]. *)
    at_ : Z -> Z -> Vec3b.t }.

Definition empty (m : t) : bool := (rows m <=? 0) || (cols m <=? 0).
End Mat3b.

(** The [CV_32S] matrix of the integral image.  [tpl::integral] creates it
    with the channels of the source and reads and writes it as a matrix of
    [int]: the cell of row [row] and column [col] is the [col]-th [int] of the
    row, one [int] of its own for every column of the scan. *)
Module Mat1i.
Record t : Type := mk
  { rows : Z;
    cols : Z;
    cells : gmap (Z * Z) Z }.

(** [sum.create(rows, cols, ...)]: nothing is written yet. *)
Definition create (r c : Z) : t := mk r c ∅.

(** [m.at<int>(row, col)] as an rvalue. *)
Definition at_ (m : t) (row col : Z) : option Z := cells m !! (row, col).

(** [m.at<int>(Point(x, y))] as an rvalue. *)
Definition at_pt (m : t) (x y : Z) : option Z := at_ m y x.

(** [m.at<int>(Point(x, y)) = v]. *)
Definition set_pt (m : t) (x y : Z) (v : Z) : t :=
  mk (rows m) (cols m) (<[(y, x) := v]> (cells m)).
End Mat1i.

(** ** tpl::integral *)

Module tpl.

(** Body of the loop over [x], at row [y]; the state is [s] and [sum]. *)
Definition integral_px (src : Mat3b.t) (y x : Z) (st : Z * Mat1i.t)
  : option (Z * Mat1i.t) :=
  let '(s, sum) := st in
  let c := Mat3b.at_ src x y in
  let s := add32 s (add32 (add32 (uc (Vec3b.val0 c)) (uc (Vec3b.val1 c)))
                          (uc (Vec3b.val2 c))) in
  match (if 0 <? y then Mat1i.at_pt sum x (y - 1) else Some 0) with
  | Some a => Some (s, Mat1i.set_pt sum x y (add32 s a))
  | None => None
  end.

(** Body of the loop over [y]. *)
Definition integral_row (src : Mat3b.t) (y : Z) (sum : Mat1i.t) : option Mat1i.t :=
  match forM (Mat3b.cols src) (integral_px src y) (0, sum) with
  | Some (_, sum') => Some sum'
  | None => None
  end.

Definition integral (src : Mat3b.t) : option Mat1i.t :=
  forM (Mat3b.rows src) (integral_row src)
       (Mat1i.create (Mat3b.rows src) (Mat3b.cols src)).

End tpl.

(** ** The scan of [main] *)

(** [struct item]. *)
Module item.
Record t : Type := mk
  { (** Difference between the needle's integral sum and the piece's. *)
    diff : Z;
    x : Z;
    y : Z;
    (** Sum of the piece of the haystack. *)
    sum : Z }.
End item.

(** The loop over the iterators of a non-empty [deq]: [itm] goes before the
    first element with a larger [diff], and the loop ends; when it reaches
    [deq.end()] nothing was inserted. *)
Fixpoint insert_before (d : Z) (itm : item.t) (deq : list item.t) : list item.t :=
  match deq with
  | [] => []
  | it :: rest =>
      if d <? item.diff it then itm :: it :: rest
      else it :: insert_before d itm rest
  end.

(** [deq.pop_back()] on a non-empty deque. *)
Definition pop_back (deq : list item.t) : list item.t := removelast deq.

(** What one window does to [deq] (the statements after [item itm = ...]). *)
Definition push_candidate (itm : item.t) (deq : list item.t) : list item.t :=
  let deq1 :=
    if (0 <? Z.of_nat (length deq))
    then insert_before (item.diff itm) itm deq
    else itm :: deq in
  if (50 <? Z.of_nat (length deq1)) then pop_back deq1 else deq1.

(** The four lookups of the window at column [x], row [y]. *)
Definition window_sum (haystack_sum : Mat1i.t) (nrows ncols : Z) (y x : Z) : option Z :=
  match Mat1i.at_ haystack_sum y x,
        Mat1i.at_ haystack_sum (y + nrows) (x + ncols),
        Mat1i.at_ haystack_sum y (x + ncols),
        Mat1i.at_ haystack_sum (y + nrows) x with
  | Some a, Some b, Some c, Some d => Some (sub32 (sub32 (add32 a b) c) d)
  | _, _, _, _ => None
  end.

(** The candidate of the window at column [x], row [y]. *)
Definition candidate (haystack_sum : Mat1i.t) (nrows ncols ns : Z) (y x : Z)
  : option item.t :=
  match window_sum haystack_sum nrows ncols y x with
  | Some s => Some (item.mk (abs32 (sub32 s ns)) x y s)
  | None => None
  end.

(** Body of the loop over [x] of the scan. *)
Definition scan_px (haystack_sum : Mat1i.t) (nrows ncols ns : Z) (y x : Z)
  (deq : list item.t) : option (list item.t) :=
  match candidate haystack_sum nrows ncols ns y x with
  | Some itm => Some (push_candidate itm deq)
  | None => None
  end.

(** Body of the loop over [y] of the scan. *)
Definition scan_row (haystack_sum needle_sum : Mat1i.t) (ns : Z) (y : Z)
  (deq : list item.t) : option (list item.t) :=
  forM (Mat1i.cols haystack_sum - Mat1i.cols needle_sum)
       (scan_px haystack_sum (Mat1i.rows needle_sum) (Mat1i.cols needle_sum) ns y) deq.

(** The two loops that fill [deq]. *)
Definition scan (haystack_sum needle_sum : Mat1i.t) (ns : Z) : option (list item.t) :=
  forM (Mat1i.rows haystack_sum - Mat1i.rows needle_sum)
       (scan_row haystack_sum needle_sum ns) [].

(** ** The brute force of [main] *)

(** The three [s += abs(...)] of one pixel. *)
Definition sad_px (c1 c2 : Vec3b.t) (s : Z) : Z :=
  let s := to_ull (s + Z.abs (uc (Vec3b.val0 c1) - uc (Vec3b.val0 c2))) in
  let s := to_ull (s + Z.abs (uc (Vec3b.val1 c1) - uc (Vec3b.val1 c2))) in
  to_ull (s + Z.abs (uc (Vec3b.val2 c1) - uc (Vec3b.val2 c2))).

(** [s] after the loops over [j] and [i], for the candidate at ([cx], [cy]). *)
Definition sad (haystack needle : Mat3b.t) (cx cy : Z) : Z :=
  for_ (Mat3b.rows needle) (fun j s =>
    for_ (Mat3b.cols needle) (fun i s =>
      sad_px (Mat3b.at_ haystack (cx + i) (cy + j)) (Mat3b.at_ needle i j) s) s) 0.

(** [result], [min], [rx], [ry]. *)
Module found.
Record t : Type := mk { result : Q; min : Z; rx : Z; ry : Z }.
End found.

(** The loop over [d], from the candidate [deq[d]] on. *)
Fixpoint brute_force (haystack needle : Mat3b.t) (max : Z) (deq : list item.t)
  (st : found.t) : found.t :=
  match deq with
  | [] => st
  | c :: rest =>
      let s := sad haystack needle (item.x c) (item.y c) in
      let st :=
        if s <? to_ull (found.min st) then
          let min := wrap32 s in
          found.mk (fsub 1 (fdiv (float_of_int min) (float_of_int max)))
                   min (item.x c) (item.y c)
        else st in
      if s =? 0 then st else brute_force haystack needle max rest st
  end.

(** The state before the brute force: the shortcut on a first candidate of
    [diff] 0. *)
Definition shortcut (deq : list item.t) : found.t :=
  match deq with
  | c :: _ =>
      if item.diff c =? 0 then found.mk 1%Q INT_MAX (item.x c) (item.y c)
      else found.mk 0%Q INT_MAX (-1) (-1)
  | [] => found.mk 0%Q INT_MAX (-1) (-1)
  end.

(** [max], the largest value the brute force can reach. *)
Definition max_sad (needle : Mat3b.t) : Z :=
  mul32 (mul32 (mul32 (Mat3b.rows needle) (Mat3b.cols needle)) 255) 3.

(** From [deq] to the result. *)
Definition refine (haystack needle : Mat3b.t) (deq : list item.t) : found.t :=
  let st := shortcut deq in
  if Qeq_bool (found.result st) 1 then st
  else brute_force haystack needle (max_sad needle) deq st.

(** ** [main] *)

(** How [main] ends. *)
Inductive outcome : Type :=
| (** "Couldn't load images!", [return 1]. *)
  LoadFailed
| (** [result], [rx], [ry] at [return 0]. *)
  Result (result : Q) (rx ry : Z).

(** [main] from the two loaded images on; [None] when a cell is read that was
    never written. *)
Definition main (haystack needle : Mat3b.t) : option outcome :=
  if Mat3b.empty haystack || Mat3b.empty needle then Some LoadFailed
  else
    match tpl.integral haystack, tpl.integral needle with
    | Some haystack_sum, Some needle_sum =>
        match Mat1i.at_ needle_sum (Mat1i.rows needle_sum - 1) (Mat1i.cols needle_sum - 1) with
        | Some ns =>
            match scan haystack_sum needle_sum ns with
            | Some deq =>
                let r := refine haystack needle deq in
                Some (Result (found.result r) (found.rx r) (found.ry r))
            | None => None
            end
        | None => None
        end
    | _, _ => None
    end.

(** ** The arguments and the output of [main] *)

(** What [main] writes, draws and shows. *)
Inductive effect : Type :=
| (** [showHelp(argv[0])]. *)
  CerrHelp
| (** "Couldn't load images!" on [cerr]. *)
  CerrLoad
| (** "Result: " and [result] on [cout]. *)
  CoutResult (result : Q)
| (** "Found at [rx,ry]" on [cout]. *)
  CoutFound (rx ry : Z)
| (** [rectangle(haystack, Point(x1, y1), Point(x2, y2), ...)]. *)
  DrawRectangle (x1 y1 x2 y2 : Z)
| (** [imshow("Result", haystack)] and [waitKey(0)]. *)
  Imshow.

(** The end of [main], from [result], [rx] and [ry]: the location is written
    and the rectangle drawn when [result] is not 0. *)
Definition show_result (needle : Mat3b.t) (result : Q) (rx ry : Z) : list effect :=
  CoutResult result ::
  (if Qeq_bool result 0 then []
   else [CoutFound rx ry;
         DrawRectangle rx ry (rx + Mat3b.cols needle) (ry + Mat3b.rows needle);
         Imshow]).

(** The whole of [main], from its arguments: the exit status and the output.
    [imread] is the loader of OpenCV, which gives an empty matrix for a file
    it cannot load. *)
Definition main_argv (imread : string -> Mat3b.t) (argv : list string)
  : option (Z * list effect) :=
  let argc := Z.of_nat (length argv) in
  let haystack_path := if 2 <? argc then nth 1 argv EmptyString else EmptyString in
  let needle_path := if 2 <? argc then nth 2 argv EmptyString else EmptyString in
  if String.eqb haystack_path EmptyString then Some (1, [CerrHelp])
  else
    let haystack := imread haystack_path in
    let needle := imread needle_path in
    match main haystack needle with
    | Some LoadFailed => Some (1, [CerrLoad])
    | Some (Result result rx ry) => Some (0, show_result needle result rx ry)
    | None => None
    end.

(** ** The walk of the face detector (class [Reader])

    A walk is taken with what [opendir], [readdir] and [stat] answer during
    it: a finite tree of the entries met, in the order in which [readdir]
    gives them.  [Reader::detect], with [imread], the detector and the
    exception it catches, is a result for every path and output name. *)

Module Reader.

#[local] Unset Elimination Schemes.

(** What [readdir] gives, and what a path names: a file, or a directory with
    its entries in the order of [readdir], the entries "." and ".." among
    them; [None] when [opendir] fails.  [d_name] is the name in the
    directory. *)
Inductive node : Type :=
| File (d_name : string)
| Dir (d_name : string) (entries : option (list node)).

#[local] Set Elimination Schemes.

(** [dirp->d_name]. *)
Definition d_name (n : node) : string :=
  match n with File name => name | Dir name _ => name end.

(** [is_dir]. *)
Definition is_dir (n : node) : bool :=
  match n with File _ => false | Dir _ _ => true end.

(** [name == "." || name == ".."]. *)
Definition is_dots (name : string) : bool :=
  String.eqb name "." || String.eqb name "..".

(** [mOutput.empty() ? mOutput : mOutput + "/" + name]. *)
Definition output_of (mOutput name : string) : string :=
  if String.eqb mOutput "" then mOutput else mOutput +:+ "/" +:+ name.

(** [readDir]: the result, and the calls of [detect] in their order, each
    with its path and its output name. *)
Fixpoint readDir (mOutput : string) (detect : string -> string -> bool)
  (n : node) (path : string) {struct n} : bool * list (string * string) :=
  match n with
  | Dir _ (Some entries) =>
      (fix loop (es : list node) (result : bool) : bool * list (string * string) :=
         match es with
         | [] => (result, [])
         | dirp :: rest =>
             let name := d_name dirp in
             if is_dots name then loop rest result
             else
               let filepath := path +:+ "/" +:+ name in
               if is_dir dirp then
                 let '(result, calls) := readDir mOutput detect dirp filepath in
                 let '(result, calls') := loop rest result in
                 (result, calls ++ calls')
               else
                 let o := output_of mOutput name in
                 let '(result, calls') := loop rest (detect filepath o) in
                 (result, (filepath, o) :: calls')
         end) entries false
  | _ => (false, [])
  end.

(** [read]. *)
Definition read (mOutput : string) (detect : string -> string -> bool)
  (n : node) (path : string) : bool * list (string * string) :=
  if is_dir n then readDir mOutput detect n path
  else (detect path mOutput, [(path, mOutput)]).

End Reader.

(** ** The corners of a contour (function [find] of the shape finder) *)

Module shapes.

(** What [find] does with a convex polygon [approx] of [vtc] vertices, as
    far as the corners go: the indices of the three points of every call
    [angle(approx[j % vtc], approx[j - 2], approx[j - 1])], in the order in
    which the cosines are pushed.  The third point is the corner, the first
    two are the ends of its sides.  The loop over [j] is in the branch
    [vtc >= 4 && vtc <= 6]; a triangle and a polygon of more than 6 vertices
    go through branches that call [angle] nowhere. *)
Definition corner_indices (vtc : Z) : list (Z * Z * Z) :=
  if vtc =? 3 then []
  else if (4 <=? vtc) && (vtc <=? 6) then
    for_from (Z.to_nat (vtc + 1 - 2)) 2
      (fun j cos => cos ++ [(Z.rem j vtc, j - 2, j - 1)]) []
  else [].

End shapes.

(** * The vocabulary of the properties *)

(** The sum of the three channels of the pixel at column [x], row [y]. *)
Definition pix_sum (m : Mat3b.t) (x y : Z) : Z :=
  let c := Mat3b.at_ m x y in
  uc (Vec3b.val0 c) + uc (Vec3b.val1 c) + uc (Vec3b.val2 c).

(** [f 0 + ... + f (n - 1)], by a loop over [i]. *)
Definition sum_range (n : Z) (f : Z -> Z) : Z :=
  for_ n (fun i acc => acc + f i) 0.

(** The sum of all channels of the pixels of [x0, x0 + w) x [y0, y0 + h), by
    iteration over the rows and columns of the rectangle. *)
Definition rect_sum (m : Mat3b.t) (x0 y0 w h : Z) : Z :=
  sum_range h (fun j => sum_range w (fun i => pix_sum m (x0 + i) (y0 + j))).

(** The per-channel absolute difference of two pixels. *)
Definition pix_sad (c1 c2 : Vec3b.t) : Z :=
  Z.abs (uc (Vec3b.val0 c1) - uc (Vec3b.val0 c2)) +
  Z.abs (uc (Vec3b.val1 c1) - uc (Vec3b.val1 c2)) +
  Z.abs (uc (Vec3b.val2 c1) - uc (Vec3b.val2 c2)).

(** The exact sum of absolute differences of the needle and the haystack
    window at ([cx], [cy]). *)
Definition exact_sad (haystack needle : Mat3b.t) (cx cy : Z) : Z :=
  sum_range (Mat3b.rows needle) (fun j =>
    sum_range (Mat3b.cols needle) (fun i =>
      pix_sad (Mat3b.at_ haystack (cx + i) (cy + j)) (Mat3b.at_ needle i j))).

(** The value [tpl::integral] leaves in the cell of column [x], row [y]. *)
Definition cell_value (src : Mat3b.t) (x y : Z) : Z :=
  wrap32 (rect_sum src 0 0 (x + 1) (y + 1)).

(** The rows above [y] are written. *)
Definition rows_done (src : Mat3b.t) (sum : Mat1i.t) (y : Z) : Prop :=
  forall y' x', 0 <= y' < y -> 0 <= x' < Mat3b.cols src ->
    Mat1i.at_ sum y' x' = Some (cell_value src x' y').

(** The invariant of the loop over [x], at row [y]. *)
Definition px_inv (src : Mat3b.t) (y x : Z) (st : Z * Mat1i.t) : Prop :=
  fst st = wrap32 (sum_range x (fun i => pix_sum src (0 + i) (0 + y))) /\
  Mat1i.rows (snd st) = Mat3b.rows src /\
  Mat1i.cols (snd st) = Mat3b.cols src /\
  rows_done src (snd st) y /\
  (forall x', 0 <= x' < x -> Mat1i.at_ (snd st) y x' = Some (cell_value src x' y)).

(** The invariant of the loop over [y]. *)
Definition row_inv (src : Mat3b.t) (y : Z) (sum : Mat1i.t) : Prop :=
  Mat1i.rows sum = Mat3b.rows src /\
  Mat1i.cols sum = Mat3b.cols src /\
  rows_done src sum y.

(** [sum] is the matrix [tpl::integral] builds from [src]. *)
Definition is_integral (src : Mat3b.t) (sum : Mat1i.t) : Prop :=
  Mat1i.rows sum = Mat3b.rows src /\
  Mat1i.cols sum = Mat3b.cols src /\
  (forall x y, 0 <= x < Mat3b.cols src -> 0 <= y < Mat3b.rows src ->
               Mat1i.at_ sum y x = Some (cell_value src x y)).

(** [deq] when the scan reaches the window at column [x], row [y]: the rows
    above [y] and the columns of row [y] left of [x] are done. *)
Definition scan_until (haystack_sum needle_sum : Mat1i.t) (ns y x : Z)
  : option (list item.t) :=
  match forM y (scan_row haystack_sum needle_sum ns) [] with
  | Some deq =>
      forM x (scan_px haystack_sum (Mat1i.rows needle_sum) (Mat1i.cols needle_sum) ns y) deq
  | None => None
  end.

(** [a] was scanned before [b]: the scan goes through the rows, and through
    the columns of each row. *)
Definition before (a b : item.t) : Prop :=
  item.y a < item.y b \/ (item.y a = item.y b /\ item.x a < item.x b).

(** The order of [deq]: by [diff], and by scan order among equal [diff]. *)
Definition ranked (a b : item.t) : Prop :=
  item.diff a < item.diff b \/ (item.diff a = item.diff b /\ before a b).

(** [deq] is in ascending order of [diff], and candidates of equal [diff] are
    in the order of the scan. *)
Definition sorted_stable (deq : list item.t) : Prop :=
  forall (i j : nat) (a b : item.t),
    (i < j)%nat -> deq !! i = Some a -> deq !! j = Some b ->
    item.diff a <= item.diff b /\ (item.diff a = item.diff b -> before a b).

(** The coordinates of [c] are in the scan range of [R] rows and [C] columns. *)
Definition in_scan_range (R C : Z) (c : item.t) : Prop :=
  0 <= item.x c < C /\ 0 <= item.y c < R.

(** The window of [c] was scanned before the scan reached column [x], row [y]. *)
Definition seen (y x : Z) (c : item.t) : Prop :=
  item.y c < y \/ (item.y c = y /\ item.x c < x).

(** What the scan keeps true of [deq]. *)
Definition deque_inv (R C y x : Z) (deq : list item.t) : Prop :=
  (length deq <= 50)%nat /\
  StronglySorted ranked deq /\
  Forall (fun c => in_scan_range R C c /\ seen y x c) deq.

(** The sum of all channels of all pixels of [m]. *)
Definition total_sum (m : Mat3b.t) : Z := rect_sum m 0 0 (Mat3b.cols m) (Mat3b.rows m).

(** [P] holds of [deq] at every point of the scan of [needle] over [haystack],
    and when the scan ends. *)
Definition throughout_scan (haystack needle : Mat3b.t) (ns : Z)
  (P : list item.t -> Prop) : Prop :=
  exists haystack_sum needle_sum,
    tpl.integral haystack = Some haystack_sum /\
    tpl.integral needle = Some needle_sum /\
    (forall y x,
       0 <= y < Mat3b.rows haystack - Mat3b.rows needle ->
       0 <= x <= Mat3b.cols haystack - Mat3b.cols needle ->
       exists deq, scan_until haystack_sum needle_sum ns y x = Some deq /\ P deq) /\
    (exists deq, scan haystack_sum needle_sum ns = Some deq /\ P deq).

(** The accesses of the brute force for the candidate [c] are inside
    [haystack]. *)
Definition accesses_in_bounds (haystack needle : Mat3b.t) (c : item.t) : Prop :=
  forall i j, 0 <= i < Mat3b.cols needle -> 0 <= j < Mat3b.rows needle ->
    0 <= item.x c + i < Mat3b.cols haystack /\
    0 <= item.y c + j < Mat3b.rows haystack.

(** The window at column [x'], row [y'] is scanned before the one at column
    [x], row [y]. *)
Definition pos_before (y' x' y x : Z) : Prop := y' < y \/ (y' = y /\ x' < x).

(** When the scan reaches column [x], row [y]: the first element of [deq] is
    the candidate of a window scanned before, ... *)
Definition head_scanned (haystack_sum needle_sum : Mat1i.t) (ns : Z) (y x : Z)
  (deq : list item.t) : Prop :=
  match deq with
  | [] => True
  | c :: _ =>
      in_scan_range (Mat1i.rows haystack_sum - Mat1i.rows needle_sum)
                    (Mat1i.cols haystack_sum - Mat1i.cols needle_sum) c /\
      pos_before (item.y c) (item.x c) y x /\
      candidate haystack_sum (Mat1i.rows needle_sum) (Mat1i.cols needle_sum) ns
        (item.y c) (item.x c) = Some c
  end.

(** ... no window scanned before has a smaller [diff], and none with the same
    [diff] was scanned before it. *)
Definition head_first_min (haystack_sum needle_sum : Mat1i.t) (ns : Z) (y x : Z)
  (deq : list item.t) : Prop :=
  forall y' x' c',
    0 <= y' < Mat1i.rows haystack_sum - Mat1i.rows needle_sum ->
    0 <= x' < Mat1i.cols haystack_sum - Mat1i.cols needle_sum ->
    pos_before y' x' y x ->
    candidate haystack_sum (Mat1i.rows needle_sum) (Mat1i.cols needle_sum) ns y' x'
    = Some c' ->
    exists c rest,
      deq = c :: rest /\
      (item.diff c < item.diff c' \/
       (item.diff c = item.diff c' /\ ~ pos_before y' x' (item.y c) (item.x c))).

(** What the scan keeps true of the first element of [deq]. *)
Definition first_inv (haystack_sum needle_sum : Mat1i.t) (ns : Z) (y x : Z)
  (deq : list item.t) : Prop :=
  head_scanned haystack_sum needle_sum ns y x deq /\
  head_first_min haystack_sum needle_sum ns y x deq.

(** [needle] is in [haystack], pixel by pixel, with its top-left pixel at
    column [x0], row [y0]. *)
Definition copied_at (haystack needle : Mat3b.t) (x0 y0 : Z) : Prop :=
  forall i j, 0 <= i < Mat3b.cols needle -> 0 <= j < Mat3b.rows needle ->
    Mat3b.at_ haystack (x0 + i) (y0 + j) = Mat3b.at_ needle i j.

(** The window at column [x'], row [y'] is the one at column [x], row [y], or
    it is scanned before it. *)
Definition pos_upto (y' x' y x : Z) : Prop := y' < y \/ (y' = y /\ x' <= x).

(** [result], [min], [rx] and [ry] when the shortcut is not taken. *)
Definition not_found : found.t := found.mk 0 INT_MAX (-1) (-1).

(** The same [result] and the same location. *)
Definition same_result (a b : found.t) : Prop :=
  (found.result a == found.result b)%Q /\
  found.rx a = found.rx b /\ found.ry a = found.ry b.

(** The [result] of the brute force for the smallest sum [min]:
    [1 - (float(min) / max)]. *)
Definition confidence (min max : Z) : Q :=
  fsub 1 (fdiv (float_of_int min) (float_of_int max)).

(** The cell of row [row], column [col] is inside the matrix of [src]. *)
Definition in_matrix (src : Mat3b.t) (row col : Z) : Prop :=
  0 <= row < Mat3b.rows src /\ 0 <= col < Mat3b.cols src.

(** No cell outside the matrix of [src] is written in [sum]. *)
Definition nothing_outside (src : Mat3b.t) (sum : Mat1i.t) : Prop :=
  forall row col, ~ in_matrix src row col -> Mat1i.at_ sum row col = None.

(** [c] is the candidate the scan computes for the window at its own
    coordinates. *)
Definition genuine (haystack_sum needle_sum : Mat1i.t) (ns : Z) (c : item.t) : Prop :=
  candidate haystack_sum (Mat1i.rows needle_sum) (Mat1i.cols needle_sum) ns
    (item.y c) (item.x c) = Some c.

(** No two elements of [deq] are candidates of the same window. *)
Definition distinct_windows (deq : list item.t) : Prop :=
  forall (i j : nat) (a b : item.t),
    i <> j -> deq !! i = Some a -> deq !! j = Some b ->
    ~ (item.x a = item.x b /\ item.y a = item.y b).

(** [c] is the first of the windows of the scan with the smallest [diff]. *)
Definition first_smallest (haystack needle : Mat3b.t) (haystack_sum : Mat1i.t)
  (c : item.t) : Prop :=
  forall y x c',
    0 <= y < Mat3b.rows haystack - Mat3b.rows needle ->
    0 <= x < Mat3b.cols haystack - Mat3b.cols needle ->
    candidate haystack_sum (Mat3b.rows needle) (Mat3b.cols needle)
      (wrap32 (total_sum needle)) y x = Some c' ->
    item.diff c < item.diff c' \/
    (item.diff c = item.diff c' /\ ~ pos_before y x (item.y c) (item.x c)).

(** [c] is the first element of [deq] with the smallest sum of absolute
    differences: [deq] is [front ++ c :: back], the elements of [front] have a
    larger sum and those of [back] no smaller one. *)
Definition first_smallest_sad (haystack needle : Mat3b.t) (deq : list item.t)
  (c : item.t) : Prop :=
  exists front back,
    deq = front ++ c :: back /\
    Forall (fun c' => sad haystack needle (item.x c) (item.y c)
                      < sad haystack needle (item.x c') (item.y c')) front /\
    Forall (fun c' => sad haystack needle (item.x c) (item.y c)
                      <= sad haystack needle (item.x c') (item.y c')) back.

(** The state in which the brute force leaves [result], [min], [rx] and [ry]
    when [c] is the candidate it keeps. *)
Definition kept (haystack needle : Mat3b.t) (c : item.t) : found.t :=
  found.mk (confidence (sad haystack needle (item.x c) (item.y c)) (max_sad needle))
           (sad haystack needle (item.x c) (item.y c)) (item.x c) (item.y c).

(** A location written or a rectangle drawn by [main] is inside [haystack]. *)
Definition inside_haystack (haystack : Mat3b.t) (e : effect) : Prop :=
  match e with
  | CoutFound rx ry =>
      0 <= rx < Mat3b.cols haystack /\ 0 <= ry < Mat3b.rows haystack
  | DrawRectangle x1 y1 x2 y2 =>
      0 <= x1 /\ x1 < x2 /\ x2 < Mat3b.cols haystack /\
      0 <= y1 /\ y1 < y2 /\ y2 < Mat3b.rows haystack
  | _ => True
  end.

(** Both paths are given and both images load. *)
Definition images_given (imread : string -> Mat3b.t) (argv : list string) : Prop :=
  (2 < length argv)%nat /\
  nth 1 argv EmptyString <> EmptyString /\
  Mat3b.empty (imread (nth 1 argv EmptyString)) = false /\
  Mat3b.empty (imread (nth 2 argv EmptyString)) = false.

(** One turn of the loop of [readDir], for an entry that is not "." or
    "..": the result it leaves. *)
Definition entry_result (mOutput : string) (detect : string -> string -> bool)
  (path : string) (dirp : Reader.node) : bool :=
  let filepath := path +:+ "/" +:+ Reader.d_name dirp in
  if Reader.is_dir dirp
  then fst (Reader.readDir mOutput detect dirp filepath)
  else detect filepath (Reader.output_of mOutput (Reader.d_name dirp)).

(** [path] followed by the names [names], a "/" before each. *)
Definition join (path : string) (names : list string) : string :=
  fold_left (fun p name => p +:+ "/" +:+ name) names path.

(** The walk of the directory [n] meets the file of the entry [name] below
    the directories [dirs], each an entry of the one before and the first an
    entry of [n]: none of these entries is "." or "..", and every directory
    on the way opens. *)
Inductive walked : Reader.node -> list string -> string -> Prop :=
| walked_file (d : string) (es : list Reader.node) (name : string) :
    In (Reader.File name) es -> Reader.is_dots name = false ->
    walked (Reader.Dir d (Some es)) [] name
| walked_dir (d : string) (es : list Reader.node) (sub : string)
    (entries : option (list Reader.node)) (dirs : list string) (name : string) :
    In (Reader.Dir sub entries) es -> Reader.is_dots sub = false ->
    walked (Reader.Dir sub entries) dirs name ->
    walked (Reader.Dir d (Some es)) (sub :: dirs) name.

(** The loop of [readDir] over the entries [es], from [result]. *)
Definition readDir_loop (mOutput : string) (detect : string -> string -> bool)
  (path : string) : list Reader.node -> bool -> bool * list (string * string) :=
  fix loop (es : list Reader.node) (result : bool) :=
    match es with
    | [] => (result, [])
    | dirp :: rest =>
        let name := Reader.d_name dirp in
        if Reader.is_dots name then loop rest result
        else
          let filepath := path +:+ "/" +:+ name in
          if Reader.is_dir dirp then
            let '(result, calls) := Reader.readDir mOutput detect dirp filepath in
            let '(result, calls') := loop rest result in
            (result, calls ++ calls')
          else
            let o := Reader.output_of mOutput name in
            let '(result, calls') := loop rest (detect filepath o) in
            (result, (filepath, o) :: calls')
    end.

(** The three indices of a call of [angle] are inside a polygon of [vtc]
    vertices, and the corner is a vertex other than 0, between the vertex
    before it and the vertex after it, cyclically. *)
Definition corner_ok (vtc : Z) (t : Z * Z * Z) : Prop :=
  let '(next, prev, corner) := t in
  1 <= corner < vtc /\ prev = corner - 1 /\ next = (corner + 1) mod vtc /\
  0 <= next < vtc.

(** * Sample images *)

Definition px (a b c : byte) : Vec3b.t := Vec3b.mk a b c.

(** A 3 x 3 haystack; the rows are
    (1,0,0) (0,0,0) (0,0,0) / (0,0,0) (2,0,0) (6,0,0) / (0,0,0) (3,0,0) (9,0,0). *)
Definition hay_demo : Mat3b.t :=
  Mat3b.mk 3 3 (fun x y =>
    if (x =? 0) && (y =? 0) then px x01 x00 x00
    else if (x =? 1) && (y =? 1) then px x02 x00 x00
    else if (x =? 2) && (y =? 1) then px x06 x00 x00
    else if (x =? 1) && (y =? 2) then px x03 x00 x00
    else if (x =? 2) && (y =? 2) then px x09 x00 x00
    else px x00 x00 x00).

(** A needle of one pixel, the pixel at column 0, row 0 of [hay_demo]. *)
Definition needle_demo : Mat3b.t := Mat3b.mk 1 1 (fun _ _ => px x01 x00 x00).

(** An image of [r] rows and [c] columns whose pixels are all [v]. *)
Definition uniform (r c : Z) (v : Vec3b.t) : Mat3b.t := Mat3b.mk r c (fun _ _ => v).

(** An image of 2000 x 1404 white pixels: its channels add up to
    2148120000, more than [INT_MAX]. *)
Definition white_big : Mat3b.t := uniform 1404 2000 (px xff xff xff).

(** A haystack of 2001 x 1405 pixels (1, 0, 0). *)
Definition hay_big : Mat3b.t := uniform 1405 2001 (px x01 x00 x00).

(** A needle of 2000 x 1404 black pixels: rows * cols * 255 * 3 is
    2148120000, more than [INT_MAX]. *)
Definition needle_big : Mat3b.t := uniform 1404 2000 (px x00 x00 x00).

(** A haystack of 4 x 4 pixels (128, 128, 128) and a needle of one such
    pixel. *)
Definition hay_gray : Mat3b.t := uniform 4 4 (px x80 x80 x80).

Definition needle_gray : Mat3b.t := uniform 1 1 (px x80 x80 x80).

(** A haystack of 50 x 50 and a needle of 5 x 5 pixels (128, 128, 128). *)
Definition hay_gray_50 : Mat3b.t := uniform 50 50 (px x80 x80 x80).

Definition needle_gray_5 : Mat3b.t := uniform 5 5 (px x80 x80 x80).

(** A haystack of 4 x 4 black pixels but for the pixel (9, 0, 0) at
    column 2, row 2, and the needle of that one pixel. *)
Definition hay_spot : Mat3b.t :=
  Mat3b.mk 4 4 (fun x y =>
    if (x =? 2) && (y =? 2) then px x09 x00 x00 else px x00 x00 x00).

Definition needle_spot : Mat3b.t := uniform 1 1 (px x09 x00 x00).

(** A haystack of 2 x 2 pixels (9, 0, 0) and a needle of one pixel
    (0, 9, 0): every window of the haystack has the sum of the needle, and
    none has its pixel. *)
Definition hay_red : Mat3b.t := uniform 2 2 (px x09 x00 x00).

Definition needle_green : Mat3b.t := uniform 1 1 (px x00 x09 x00).

(** A detector that finds a face in the file "photos/a.jpg" only. *)
Definition detect_demo (path output : string) : bool := String.eqb path "photos/a.jpg".

(** * Proofs *)

(** ** Machine integers *)

Lemma wrap32_range z : -2147483648 <= wrap32 z < 2147483648.
Proof. unfold wrap32. pose proof (Z.mod_pos_bound (z + 2147483648) 4294967296). lia. Qed.

Lemma wrap32_id z : -2147483648 <= z < 2147483648 -> wrap32 z = z.
Proof. intros H. unfold wrap32. rewrite Z.mod_small; lia. Qed.

Lemma wrap32_add_l a b : wrap32 (wrap32 a + b) = wrap32 (a + b).
Proof.
  unfold wrap32.
  replace ((a + 2147483648) mod 4294967296 - 2147483648 + b + 2147483648)
    with ((a + 2147483648) mod 4294967296 + b) by lia.
  rewrite Zplus_mod_idemp_l. do 2 f_equal. lia.
Qed.

Lemma wrap32_add_r a b : wrap32 (a + wrap32 b) = wrap32 (a + b).
Proof. rewrite Z.add_comm, wrap32_add_l. f_equal. lia. Qed.

(** The four-term expression of the scan, on wrapped operands. *)
Lemma wrap32_corners a b c d :
  sub32 (sub32 (add32 (wrap32 a) (wrap32 b)) (wrap32 c)) (wrap32 d)
  = wrap32 (a + b - c - d).
Proof. unfold sub32, add32, wrap32. Z.div_mod_to_equations. lia. Qed.

Lemma uc_range b : 0 <= uc b <= 255.
Proof. unfold uc. pose proof (Byte.to_N_bounded b). lia. Qed.

(** Brings in the range of every channel that occurs in the goal. *)
Ltac channel_bounds :=
  repeat match goal with
         | |- context [uc ?b] =>
             lazymatch goal with
             | _ : 0 <= uc b <= 255 |- _ => fail
             | _ => pose proof (uc_range b)
             end
         end.

(** ** Loops *)

Lemma for_from_snoc {S : Type} (body : Z -> S -> S) n : forall i s,
  for_from (Datatypes.S n) i body s = body (i + Z.of_nat n) (for_from n i body s).
Proof.
  induction n as [|n IH]; intros i s.
  - simpl. f_equal. lia.
  - change (for_from (Datatypes.S (Datatypes.S n)) i body s)
      with (for_from (Datatypes.S n) (i + 1) body (body i s)).
    rewrite IH. simpl. f_equal. lia.
Qed.

Lemma for_nonpos {S : Type} (body : Z -> S -> S) hi s : hi <= 0 -> for_ hi body s = s.
Proof. intros H. unfold for_. replace (Z.to_nat hi) with O by lia. reflexivity. Qed.

Lemma for_succ {S : Type} (body : Z -> S -> S) hi s :
  0 <= hi -> for_ (hi + 1) body s = body hi (for_ hi body s).
Proof.
  intros H. unfold for_.
  replace (Z.to_nat (hi + 1)) with (Datatypes.S (Z.to_nat hi)) by lia.
  rewrite for_from_snoc. f_equal. lia.
Qed.

(** Induction on the upper bound of a loop. *)
Lemma Z_bound_ind (P : Z -> Prop) :
  P 0 -> (forall n, 0 <= n -> P n -> P (n + 1)) -> forall n, 0 <= n -> P n.
Proof. intros H0 HS n Hn. apply natlike_ind; auto. Qed.

Lemma forM_from_inv {S : Type} (P : Z -> S -> Prop) (body : Z -> S -> option S) n :
  forall i s,
    P i s ->
    (forall k t, i <= k < i + Z.of_nat n -> P k t ->
                 exists t', body k t = Some t' /\ P (k + 1) t') ->
    exists s', forM_from n i body s = Some s' /\ P (i + Z.of_nat n) s'.
Proof.
  induction n as [|n IH]; intros i s Hs Hstep.
  - exists s. split; [reflexivity|]. replace (i + Z.of_nat 0) with i by lia. exact Hs.
  - destruct (Hstep i s) as (s1 & Hb & Hs1); [lia | exact Hs |].
    destruct (IH (i + 1) s1 Hs1) as (s' & Hl & Hs').
    { intros k t Hk Ht. apply Hstep; [lia | exact Ht]. }
    exists s'. split.
    + simpl. rewrite Hb. exact Hl.
    + replace (i + Z.of_nat (Datatypes.S n)) with (i + 1 + Z.of_nat n) by lia. exact Hs'.
Qed.

(** The invariant rule of [forM]: a body that keeps [P] runs to the bound. *)
Lemma forM_inv {S : Type} (P : Z -> S -> Prop) (body : Z -> S -> option S) hi s :
  0 <= hi ->
  P 0 s ->
  (forall k t, 0 <= k < hi -> P k t -> exists t', body k t = Some t' /\ P (k + 1) t') ->
  exists s', forM hi body s = Some s' /\ P hi s'.
Proof.
  intros Hhi Hs Hstep. unfold forM.
  destruct (forM_from_inv P body (Z.to_nat hi) 0 s Hs) as (s' & H1 & H2).
  { intros k t Hk. apply Hstep. lia. }
  exists s'. split; [exact H1|]. replace hi with (0 + Z.of_nat (Z.to_nat hi)) by lia. exact H2.
Qed.

Lemma forM_nonpos {S : Type} (body : Z -> S -> option S) hi s :
  hi <= 0 -> forM hi body s = Some s.
Proof. intros H. unfold forM. replace (Z.to_nat hi) with O by lia. reflexivity. Qed.

Lemma forM_from_snoc {S : Type} (body : Z -> S -> option S) n : forall i s,
  forM_from (Datatypes.S n) i body s =
  match forM_from n i body s with
  | Some t => body (i + Z.of_nat n) t
  | None => None
  end.
Proof.
  induction n as [|n IH]; intros i s.
  - cbn [forM_from]. replace (i + Z.of_nat 0) with i by lia.
    destruct (body i s); reflexivity.
  - change (forM_from (Datatypes.S (Datatypes.S n)) i body s)
      with (match body i s with
            | Some s' => forM_from (Datatypes.S n) (i + 1) body s'
            | None => None
            end).
    destruct (body i s) as [s1|] eqn:Hb.
    + rewrite IH. simpl. rewrite Hb.
      replace (i + 1 + Z.of_nat n) with (i + Z.pos (Pos.of_succ_nat n)) by lia.
      reflexivity.
    + simpl. rewrite Hb. reflexivity.
Qed.

Lemma forM_succ {S : Type} (body : Z -> S -> option S) hi s :
  0 <= hi ->
  forM (hi + 1) body s =
  match forM hi body s with Some t => body hi t | None => None end.
Proof.
  intros H. unfold forM.
  replace (Z.to_nat (hi + 1)) with (Datatypes.S (Z.to_nat hi)) by lia.
  rewrite forM_from_snoc. replace (0 + Z.of_nat (Z.to_nat hi)) with hi by lia.
  reflexivity.
Qed.

(** ** Sums *)

Lemma sum_range_nonpos n f : n <= 0 -> sum_range n f = 0.
Proof. apply for_nonpos. Qed.

Lemma sum_range_succ n f : 0 <= n -> sum_range (n + 1) f = sum_range n f + f n.
Proof. intros H. unfold sum_range. rewrite for_succ by exact H. reflexivity. Qed.

Lemma sum_range_ext n f g :
  (forall i, 0 <= i < n -> f i = g i) -> sum_range n f = sum_range n g.
Proof.
  destruct (Z_lt_le_dec n 0) as [Hn|Hn].
  - intros _. rewrite !sum_range_nonpos by lia. reflexivity.
  - revert f g. pattern n. apply Z_bound_ind; [| |exact Hn].
    + intros. rewrite !sum_range_nonpos by lia. reflexivity.
    + intros k Hk IH f g H. rewrite !sum_range_succ by exact Hk.
      rewrite (IH f g), H; [reflexivity | lia |]. intros. apply H. lia.
Qed.

Lemma sum_range_plus n f g :
  sum_range n (fun i => f i + g i) = sum_range n f + sum_range n g.
Proof.
  destruct (Z_lt_le_dec n 0) as [Hn|Hn].
  - rewrite !sum_range_nonpos by lia. reflexivity.
  - pattern n. apply Z_bound_ind; [| |exact Hn].
    + rewrite !sum_range_nonpos by lia. reflexivity.
    + intros k Hk IH. rewrite !sum_range_succ by exact Hk. lia.
Qed.

Lemma sum_range_split a b f :
  0 <= a -> 0 <= b ->
  sum_range (a + b) f = sum_range a f + sum_range b (fun i => f (a + i)).
Proof.
  intros Ha Hb. pattern b. apply Z_bound_ind; [| |exact Hb].
  - rewrite Z.add_0_r, (sum_range_nonpos 0) by lia. lia.
  - intros k Hk IH. rewrite Z.add_assoc, !sum_range_succ by lia. lia.
Qed.

Lemma sum_range_const n c : 0 <= n -> sum_range n (fun _ => c) = n * c.
Proof.
  intros Hn. pattern n. apply Z_bound_ind; [| |exact Hn].
  - apply sum_range_nonpos. lia.
  - intros k Hk IH. rewrite sum_range_succ, IH by exact Hk. lia.
Qed.

Lemma sum_range_bounds n f lo hi :
  0 <= n -> (forall i, 0 <= i < n -> lo <= f i <= hi) ->
  n * lo <= sum_range n f <= n * hi.
Proof.
  intros Hn. pattern n. apply Z_bound_ind; [| |exact Hn].
  - intros _. rewrite sum_range_nonpos; lia.
  - intros k Hk IH H. rewrite sum_range_succ by exact Hk.
    assert (lo <= f k <= hi) by (apply H; lia).
    assert (k * lo <= sum_range k f <= k * hi) by (apply IH; intros; apply H; lia).
    lia.
Qed.

(** ** The integral image *)

Lemma rect_sum_row m x0 y0 w h :
  0 <= h ->
  rect_sum m x0 y0 w (h + 1) =
  rect_sum m x0 y0 w h + sum_range w (fun i => pix_sum m (x0 + i) (y0 + h)).
Proof. intros H. unfold rect_sum. rewrite sum_range_succ by exact H. reflexivity. Qed.

Lemma rect_sum_no_rows m x0 y0 w h : h <= 0 -> rect_sum m x0 y0 w h = 0.
Proof. intros H. unfold rect_sum. apply sum_range_nonpos, H. Qed.

Section Integral.

Variable src : Mat3b.t.

Lemma integral_px_step y x st :
  0 <= y -> 0 <= x < Mat3b.cols src -> px_inv src y x st ->
  exists st', tpl.integral_px src y x st = Some st' /\ px_inv src y (x + 1) st'.
Proof.
  intros Hy Hx (Hs & Hr & Hc & Habove & Hrow). destruct st as [s sum]. simpl in *.
  unfold tpl.integral_px.
  assert (Ha : (if 0 <? y then Mat1i.at_pt sum x (y - 1) else Some 0)
               = Some (wrap32 (rect_sum src 0 0 (x + 1) y))).
  { destruct (Z.ltb_spec 0 y) as [Hpos|Hzero].
    - unfold Mat1i.at_pt. rewrite (Habove (y - 1) x) by lia.
      unfold cell_value. do 3 f_equal. lia.
    - rewrite rect_sum_no_rows by lia. reflexivity. }
  rewrite Ha. eexists. split; [reflexivity|].
  assert (Hs' : add32 s (add32 (add32 (uc (Vec3b.val0 (Mat3b.at_ src x y)))
                                      (uc (Vec3b.val1 (Mat3b.at_ src x y))))
                               (uc (Vec3b.val2 (Mat3b.at_ src x y))))
                = wrap32 (sum_range (x + 1) (fun i => pix_sum src (0 + i) (0 + y)))).
  { channel_bounds. unfold add32. rewrite Hs, sum_range_succ by lia.
    rewrite wrap32_add_l.
    rewrite (wrap32_id (uc _ + uc _)) by lia.
    rewrite (wrap32_id (uc _ + uc _ + uc _)) by lia.
    unfold pix_sum. rewrite !Z.add_0_l. reflexivity. }
  unfold px_inv. simpl. repeat split; try assumption.
  - intros y' x' Hy' Hx'. unfold Mat1i.at_, Mat1i.set_pt. simpl.
    rewrite lookup_insert_ne by (intros [=]; lia). apply Habove; assumption.
  - intros x' Hx'. unfold Mat1i.at_, Mat1i.set_pt. simpl.
    destruct (Z.eq_dec x' x) as [->|Hne].
    + rewrite lookup_insert_eq. f_equal. rewrite Hs'. unfold add32, cell_value.
      rewrite wrap32_add_l, wrap32_add_r. f_equal.
      rewrite rect_sum_row by lia. lia.
    + rewrite lookup_insert_ne by (intros [=]; lia). apply Hrow. lia.
Qed.

Lemma integral_row_step y sum :
  0 <= y -> 0 <= Mat3b.cols src -> row_inv src y sum ->
  exists sum', tpl.integral_row src y sum = Some sum' /\ row_inv src (y + 1) sum'.
Proof.
  intros Hy Hc (Hr & Hcs & Habove). unfold tpl.integral_row.
  destruct (forM_inv (px_inv src y) (tpl.integral_px src y) (Mat3b.cols src) (0, sum))
    as ([s sum'] & Hrun & Hs & Hr' & Hc' & Habove' & Hrow'); [exact Hc | |  |].
  - unfold px_inv. simpl. rewrite sum_range_nonpos by lia. repeat split; try assumption.
    intros x' Hx'. lia.
  - intros k t Hk Ht. apply integral_px_step; [exact Hy | exact Hk | exact Ht].
  - rewrite Hrun. exists sum'. split; [reflexivity|]. simpl in *.
    repeat split; try assumption.
    intros y' x' Hy' Hx'. destruct (Z.eq_dec y' y) as [->|Hne].
    + apply Hrow'. exact Hx'.
    + apply Habove'; lia.
Qed.

(** [tpl::integral] writes every cell of the matrix, and what it writes. *)
Lemma integral_spec :
  0 <= Mat3b.rows src -> 0 <= Mat3b.cols src ->
  exists sum, tpl.integral src = Some sum /\ is_integral src sum.
Proof.
  intros Hr Hc. unfold tpl.integral.
  destruct (forM_inv (row_inv src) (tpl.integral_row src) (Mat3b.rows src)
              (Mat1i.create (Mat3b.rows src) (Mat3b.cols src)))
    as (sum & Hrun & Hr' & Hc' & Hdone); [exact Hr | | |].
  - repeat split. intros y' x' Hy'. lia.
  - intros k t Hk Ht. apply integral_row_step; [lia | exact Hc | exact Ht].
  - exists sum. repeat split; try assumption.
    intros x y Hx Hy. apply Hdone; assumption.
Qed.

End Integral.

(** ** The window sum *)

Lemma rect_sum_split_cols m x0 y0 a w h :
  0 <= a -> 0 <= w ->
  rect_sum m x0 y0 (a + w) h = rect_sum m x0 y0 a h + rect_sum m (x0 + a) y0 w h.
Proof.
  intros Ha Hw. unfold rect_sum. rewrite <- sum_range_plus.
  apply sum_range_ext. intros j _. rewrite sum_range_split by assumption.
  f_equal. apply sum_range_ext. intros i _. f_equal. lia.
Qed.

Lemma rect_sum_split_rows m x0 y0 w b h :
  0 <= b -> 0 <= h ->
  rect_sum m x0 y0 w (b + h) = rect_sum m x0 y0 w b + rect_sum m x0 (y0 + b) w h.
Proof.
  intros Hb Hh. unfold rect_sum. rewrite sum_range_split by assumption.
  f_equal. apply sum_range_ext. intros j _. apply sum_range_ext. intros i _.
  f_equal. lia.
Qed.

(** Inclusion and exclusion on the sums from the origin. *)
Lemma rect_sum_corners m a b w h :
  0 <= a -> 0 <= b -> 0 <= w -> 0 <= h ->
  rect_sum m 0 0 a b + rect_sum m 0 0 (a + w) (b + h)
  - rect_sum m 0 0 (a + w) b - rect_sum m 0 0 a (b + h)
  = rect_sum m a b w h.
Proof.
  intros Ha Hb Hw Hh.
  rewrite (rect_sum_split_cols m 0 0 a w (b + h)) by assumption.
  rewrite (rect_sum_split_cols m 0 0 a w b) by assumption.
  rewrite (rect_sum_split_rows m (0 + a) 0 w b h) by assumption.
  rewrite !Z.add_0_l. lia.
Qed.

(** The four lookups, on the integral image of [haystack], give the sum of the
    window whose top-left pixel is at column [x + 1], row [y + 1]. *)
Lemma window_sum_spec haystack haystack_sum nrows ncols y x :
  is_integral haystack haystack_sum ->
  0 <= x -> 0 <= y -> 0 <= ncols -> 0 <= nrows ->
  x + ncols < Mat3b.cols haystack -> y + nrows < Mat3b.rows haystack ->
  window_sum haystack_sum nrows ncols y x
  = Some (wrap32 (rect_sum haystack (x + 1) (y + 1) ncols nrows)).
Proof.
  intros (_ & _ & Hcell) Hx Hy Hnc Hnr Hxc Hyr. unfold window_sum.
  rewrite !Hcell by lia. unfold cell_value. f_equal.
  rewrite wrap32_corners. f_equal.
  replace (x + ncols + 1) with (x + 1 + ncols) by lia.
  replace (y + nrows + 1) with (y + 1 + nrows) by lia.
  apply rect_sum_corners; lia.
Qed.

(** ** The scan *)

Lemma scan_until_end haystack_sum needle_sum ns :
  scan haystack_sum needle_sum ns
  = scan_until haystack_sum needle_sum ns
      (Mat1i.rows haystack_sum - Mat1i.rows needle_sum) 0.
Proof.
  unfold scan, scan_until.
  destruct (forM _ (scan_row haystack_sum needle_sum ns) []); reflexivity.
Qed.

Lemma scan_until_next_row haystack_sum needle_sum ns y :
  0 <= y ->
  scan_until haystack_sum needle_sum ns (y + 1) 0
  = scan_until haystack_sum needle_sum ns y
      (Mat1i.cols haystack_sum - Mat1i.cols needle_sum).
Proof.
  intros Hy. unfold scan_until. rewrite forM_succ by exact Hy.
  destruct (forM y _ []) as [deq|]; [|reflexivity].
  unfold scan_row at 1.
  destruct (forM _ (scan_px _ _ _ _ y) deq); reflexivity.
Qed.

Lemma scan_until_next_px haystack_sum needle_sum ns y x :
  0 <= x ->
  scan_until haystack_sum needle_sum ns y (x + 1)
  = match scan_until haystack_sum needle_sum ns y x with
    | Some deq =>
        scan_px haystack_sum (Mat1i.rows needle_sum) (Mat1i.cols needle_sum) ns y x deq
    | None => None
    end.
Proof.
  intros Hx. unfold scan_until.
  destruct (forM y _ []) as [deq|]; [|reflexivity].
  apply forM_succ, Hx.
Qed.

Section Scan.

Variables haystack_sum needle_sum : Mat1i.t.
Variable ns : Z.

Let R : Z := Mat1i.rows haystack_sum - Mat1i.rows needle_sum.
Let C : Z := Mat1i.cols haystack_sum - Mat1i.cols needle_sum.
Let cand : Z -> Z -> option item.t :=
  candidate haystack_sum (Mat1i.rows needle_sum) (Mat1i.cols needle_sum) ns.

(** Every window of the scan range has its four cells written. *)
Hypothesis cand_defined :
  forall y x, 0 <= y < R -> 0 <= x < C -> exists itm, cand y x = Some itm.

(** [Inv y x deq]: what is known of [deq] when the scan reaches column [x] of
    row [y]. *)
Variable Inv : Z -> Z -> list item.t -> Prop.

Hypothesis Inv_start : Inv 0 0 [].
Hypothesis Inv_px : forall y x deq itm,
  0 <= y < R -> 0 <= x < C -> Inv y x deq -> cand y x = Some itm ->
  Inv y (x + 1) (push_candidate itm deq).
Hypothesis Inv_row : forall y deq, 0 <= y < R -> 0 <= C -> Inv y C deq -> Inv (y + 1) 0 deq.

Lemma scan_row_inv y deq x :
  0 <= y < R -> 0 <= x <= C -> Inv y 0 deq ->
  exists deq',
    forM x (scan_px haystack_sum (Mat1i.rows needle_sum) (Mat1i.cols needle_sum) ns y) deq
    = Some deq' /\ Inv y x deq'.
Proof.
  intros Hy Hx Hdeq. apply (forM_inv (Inv y)); [lia | exact Hdeq |].
  intros k t Hk Ht. unfold scan_px.
  destruct (cand_defined y k) as (itm & Hitm); [lia | lia |].
  fold cand. rewrite Hitm. eexists. split; [reflexivity|].
  apply Inv_px; [lia | lia | exact Ht | exact Hitm].
Qed.

Lemma scan_rows_inv y :
  0 <= y <= R -> 0 <= C ->
  exists deq, forM y (scan_row haystack_sum needle_sum ns) [] = Some deq /\ Inv y 0 deq.
Proof.
  intros Hy HC. apply (forM_inv (fun y deq => Inv y 0 deq)); [lia | exact Inv_start |].
  intros k t Hk Ht. unfold scan_row.
  destruct (scan_row_inv k t C) as (deq' & Hrun & Hdeq'); [lia | lia | exact Ht |].
  exists deq'. split; [exact Hrun|]. apply Inv_row; [lia | exact HC | exact Hdeq'].
Qed.

(** The invariant holds at every point of the scan. *)
Lemma scan_until_inv y x :
  0 <= y < R -> 0 <= x <= C ->
  exists deq, scan_until haystack_sum needle_sum ns y x = Some deq /\ Inv y x deq.
Proof.
  intros Hy Hx. unfold scan_until.
  destruct (scan_rows_inv y) as (deq & Hrun & Hdeq); [lia | lia |].
  rewrite Hrun. apply scan_row_inv; [exact Hy | exact Hx | exact Hdeq].
Qed.

(** The invariant holds when the scan ends. *)
Lemma scan_inv :
  0 <= R -> 0 <= C ->
  exists deq, scan haystack_sum needle_sum ns = Some deq /\ Inv R 0 deq.
Proof. intros HR HC. unfold scan. apply scan_rows_inv; lia. Qed.

End Scan.

(** An empty scan range leaves [deq] empty. *)
Lemma scan_empty haystack_sum needle_sum ns :
  Mat1i.rows haystack_sum - Mat1i.rows needle_sum <= 0 \/
  Mat1i.cols haystack_sum - Mat1i.cols needle_sum <= 0 ->
  scan haystack_sum needle_sum ns = Some [].
Proof.
  intros [H|H]; unfold scan.
  - apply forM_nonpos, H.
  - destruct (Z_lt_le_dec (Mat1i.rows haystack_sum - Mat1i.rows needle_sum) 0) as [Hn|Hn].
    + apply forM_nonpos. lia.
    + destruct (forM_inv (fun _ deq => deq = [])
                  (scan_row haystack_sum needle_sum ns)
                  (Mat1i.rows haystack_sum - Mat1i.rows needle_sum) [])
        as (deq & Hrun & ->); [exact Hn | reflexivity | | exact Hrun].
      intros k t _ ->. exists []. split; [|reflexivity].
      unfold scan_row. apply forM_nonpos, H.
Qed.

(** ** The candidate list *)

Lemma insert_before_length d itm deq :
  (length deq <= length (insert_before d itm deq) <= Datatypes.S (length deq))%nat.
Proof.
  induction deq as [|it rest IH]; simpl; [lia|].
  destruct (d <? item.diff it); simpl; lia.
Qed.

Lemma removelast_length {A : Type} (l : list A) :
  length (removelast l) = Nat.pred (length l).
Proof. rewrite removelast_firstn_len, length_take. lia. Qed.

Lemma push_candidate_length itm deq :
  (length deq <= 50)%nat -> (length (push_candidate itm deq) <= 50)%nat.
Proof.
  intros H. unfold push_candidate.
  set (deq1 := if 0 <? Z.of_nat (length deq) then _ else _).
  assert (H1 : (length deq1 <= 51)%nat).
  { subst deq1. destruct (0 <? Z.of_nat (length deq)).
    - pose proof (insert_before_length (item.diff itm) itm deq). lia.
    - simpl. lia. }
  destruct (Z.ltb_spec 50 (Z.of_nat (length deq1))).
  - unfold pop_back. rewrite removelast_length. lia.
  - lia.
Qed.

Lemma Forall_insert_before (P : item.t -> Prop) d itm deq :
  Forall P deq -> P itm -> Forall P (insert_before d itm deq).
Proof.
  intros Hdeq Hitm. induction Hdeq as [|it rest Hit Hrest IH]; simpl; [constructor|].
  destruct (d <? item.diff it); repeat constructor; assumption.
Qed.

Lemma Forall_removelast {A : Type} (P : A -> Prop) (l : list A) :
  Forall P l -> Forall P (removelast l).
Proof.
  induction 1 as [|a l Ha Hl IH]; [constructor|].
  destruct l as [|b l]; [constructor|].
  change (Forall P (a :: removelast (b :: l))). constructor; assumption.
Qed.

Lemma Forall_push_candidate (P : item.t -> Prop) itm deq :
  Forall P deq -> P itm -> Forall P (push_candidate itm deq).
Proof.
  intros Hdeq Hitm. unfold push_candidate.
  set (deq1 := if 0 <? Z.of_nat (length deq) then _ else _).
  assert (H1 : Forall P deq1).
  { subst deq1. destruct (0 <? Z.of_nat (length deq)).
    - apply Forall_insert_before; assumption.
    - constructor; assumption. }
  destruct (50 <? Z.of_nat (length deq1)); [apply Forall_removelast|]; exact H1.
Qed.

Lemma ranked_le a b : ranked a b -> item.diff a <= item.diff b.
Proof. unfold ranked. lia. Qed.

Lemma StronglySorted_insert_before itm deq :
  StronglySorted ranked deq ->
  Forall (fun c => before c itm) deq ->
  StronglySorted ranked (insert_before (item.diff itm) itm deq).
Proof.
  intros Hsorted. induction Hsorted as [|it rest Hrest IH Hit]; intros Hbefore; simpl.
  - constructor.
  - inversion Hbefore as [|? ? Hb Hbs]; subst.
    destruct (Z.ltb_spec (item.diff itm) (item.diff it)) as [Hlt|Hge].
    + constructor; [constructor; assumption|].
      constructor; [left; exact Hlt|].
      eapply Forall_impl; [exact Hit|]. intros c Hc. left.
      pose proof (ranked_le _ _ Hc). lia.
    + constructor; [apply IH; exact Hbs|].
      apply Forall_insert_before; [exact Hit|].
      unfold ranked. destruct (Z.eq_dec (item.diff it) (item.diff itm)); [right|left]; auto.
      lia.
Qed.

Lemma StronglySorted_removelast {A : Type} (r : A -> A -> Prop) (l : list A) :
  StronglySorted r l -> StronglySorted r (removelast l).
Proof.
  induction 1 as [|a l Hl IH Ha]; [constructor|].
  destruct l as [|b l]; [constructor|].
  change (StronglySorted r (a :: removelast (b :: l))).
  constructor; [exact IH|]. apply Forall_removelast in Ha. exact Ha.
Qed.

Lemma StronglySorted_push_candidate itm deq :
  StronglySorted ranked deq ->
  Forall (fun c => before c itm) deq ->
  StronglySorted ranked (push_candidate itm deq).
Proof.
  intros Hsorted Hbefore. unfold push_candidate.
  set (deq1 := if 0 <? Z.of_nat (length deq) then _ else _).
  assert (H1 : StronglySorted ranked deq1).
  { subst deq1. destruct deq as [|it rest].
    - repeat constructor.
    - change (0 <? Z.of_nat (length (it :: rest))) with true.
      apply StronglySorted_insert_before; assumption. }
  destruct (50 <? Z.of_nat (length deq1)); [apply StronglySorted_removelast|]; exact H1.
Qed.

Lemma StronglySorted_ranked_lookup deq : StronglySorted ranked deq -> sorted_stable deq.
Proof.
  induction 1 as [|c rest Hrest IH Hc]; intros i j a b Hij Ha Hb.
  - destruct i; discriminate.
  - destruct j as [|j]; [lia|]. destruct i as [|i].
    + injection Ha as <-. simpl in Hb.
      rewrite Forall_forall in Hc. apply list_elem_of_lookup_2 in Hb.
      specialize (Hc b Hb). unfold ranked in Hc. split; [lia|]. intros Heq.
      destruct Hc as [Hlt|[_ Hbefore]]; [lia | exact Hbefore].
    + apply (IH i j); [lia | exact Ha | exact Hb].
Qed.

Lemma not_empty m : Mat3b.empty m = false -> 0 < Mat3b.rows m /\ 0 < Mat3b.cols m.
Proof.
  unfold Mat3b.empty. intros H. apply orb_false_iff in H. destruct H as [H1 H2].
  apply Z.leb_gt in H1, H2. split; assumption.
Qed.

(** The candidate of a window of the scan range. *)
Lemma candidate_spec haystack needle haystack_sum needle_sum ns y x :
  is_integral haystack haystack_sum -> is_integral needle needle_sum ->
  0 <= Mat3b.rows needle -> 0 <= Mat3b.cols needle ->
  0 <= y < Mat1i.rows haystack_sum - Mat1i.rows needle_sum ->
  0 <= x < Mat1i.cols haystack_sum - Mat1i.cols needle_sum ->
  candidate haystack_sum (Mat1i.rows needle_sum) (Mat1i.cols needle_sum) ns y x
  = let s := wrap32 (rect_sum haystack (x + 1) (y + 1)
                       (Mat3b.cols needle) (Mat3b.rows needle)) in
    Some (item.mk (abs32 (sub32 s ns)) x y s).
Proof.
  intros Hh Hn Hnr Hnc Hy Hx. unfold candidate.
  destruct Hn as (Hnr' & Hnc' & _). pose proof Hh as (Hhr & Hhc & _).
  rewrite (window_sum_spec haystack) by (try assumption; lia).
  rewrite Hnr', Hnc'. reflexivity.
Qed.

Section ScanInvariant.

Variables haystack needle : Mat3b.t.
Variables haystack_sum needle_sum : Mat1i.t.
Variable ns : Z.

Hypothesis haystack_ok : is_integral haystack haystack_sum.
Hypothesis needle_ok : is_integral needle needle_sum.
Hypothesis needle_rows : 0 <= Mat3b.rows needle.
Hypothesis needle_cols : 0 <= Mat3b.cols needle.

Let R : Z := Mat1i.rows haystack_sum - Mat1i.rows needle_sum.
Let C : Z := Mat1i.cols haystack_sum - Mat1i.cols needle_sum.

Lemma candidate_defined y x :
  0 <= y < R -> 0 <= x < C ->
  exists itm,
    candidate haystack_sum (Mat1i.rows needle_sum) (Mat1i.cols needle_sum) ns y x
    = Some itm.
Proof.
  intros Hy Hx. rewrite (candidate_spec haystack needle) by assumption.
  eexists. reflexivity.
Qed.

Lemma candidate_coords y x itm :
  candidate haystack_sum (Mat1i.rows needle_sum) (Mat1i.cols needle_sum) ns y x
  = Some itm ->
  item.x itm = x /\ item.y itm = y.
Proof.
  unfold candidate. destruct (window_sum _ _ _ _ _); [|discriminate].
  intros [= <-]. split; reflexivity.
Qed.

Lemma deque_inv_px y x deq itm :
  0 <= y < R -> 0 <= x < C -> deque_inv R C y x deq ->
  candidate haystack_sum (Mat1i.rows needle_sum) (Mat1i.cols needle_sum) ns y x
  = Some itm ->
  deque_inv R C y (x + 1) (push_candidate itm deq).
Proof.
  intros Hy Hx (Hlen & Hsorted & Hseen) Hitm.
  destruct (candidate_coords y x itm Hitm) as [Hix Hiy].
  split; [|split].
  - apply push_candidate_length, Hlen.
  - apply StronglySorted_push_candidate; [exact Hsorted|].
    eapply Forall_impl; [exact Hseen|]. intros c [_ Hc].
    unfold before, seen in *. lia.
  - apply Forall_push_candidate.
    + eapply Forall_impl; [exact Hseen|]. intros c [Hrange Hc].
      split; [exact Hrange|]. unfold seen in *. lia.
    + unfold in_scan_range, seen. lia.
Qed.

Lemma deque_inv_row y deq :
  0 <= y < R -> 0 <= C -> deque_inv R C y C deq -> deque_inv R C (y + 1) 0 deq.
Proof.
  intros Hy HC (Hlen & Hsorted & Hseen). split; [|split]; try assumption.
  eapply Forall_impl; [exact Hseen|]. intros c [Hrange Hc].
  split; [exact Hrange|]. unfold seen in *. lia.
Qed.

Lemma deque_inv_start : deque_inv R C 0 0 [].
Proof. split; [simpl; lia|]. split; constructor. Qed.

(** The invariant at every point of the scan. *)
Lemma scan_until_deque_inv y x :
  0 <= y < R -> 0 <= x <= C ->
  exists deq,
    scan_until haystack_sum needle_sum ns y x = Some deq /\ deque_inv R C y x deq.
Proof.
  apply (scan_until_inv haystack_sum needle_sum ns candidate_defined
           (deque_inv R C) deque_inv_start deque_inv_px deque_inv_row).
Qed.

(** The invariant after the scan. *)
Lemma scan_deque_inv :
  exists deq,
    scan haystack_sum needle_sum ns = Some deq /\
    (length deq <= 50)%nat /\
    StronglySorted ranked deq /\
    Forall (in_scan_range R C) deq.
Proof.
  destruct (Z_lt_le_dec 0 R) as [HR|HR]; [destruct (Z_lt_le_dec 0 C) as [HC|HC]|].
  - destruct (scan_inv haystack_sum needle_sum ns candidate_defined
                (deque_inv R C) deque_inv_start deque_inv_px deque_inv_row)
      as (deq & Hrun & Hlen & Hsorted & Hseen); [fold R; lia | fold C; lia |].
    exists deq. repeat split; try assumption.
    eapply Forall_impl; [exact Hseen|]. intros c [Hc _]. exact Hc.
  - exists []. rewrite scan_empty by (right; exact HC).
    repeat split; [simpl; lia | constructor | constructor].
  - exists []. rewrite scan_empty by (left; exact HR).
    repeat split; [simpl; lia | constructor | constructor].
Qed.

End ScanInvariant.

(** ** The run of main *)

(** On images that [imread] could load, [main] builds both integral images,
    reads [ns], scans, and reports what [refine] finds in [deq]. *)
Lemma main_run haystack needle :
  Mat3b.empty haystack = false -> Mat3b.empty needle = false ->
  exists haystack_sum needle_sum deq,
    tpl.integral haystack = Some haystack_sum /\
    tpl.integral needle = Some needle_sum /\
    is_integral haystack haystack_sum /\
    is_integral needle needle_sum /\
    scan haystack_sum needle_sum (wrap32 (total_sum needle)) = Some deq /\
    main haystack needle
    = Some (Result (found.result (refine haystack needle deq))
                   (found.rx (refine haystack needle deq))
                   (found.ry (refine haystack needle deq))).
Proof.
  intros Hh Hn. unfold main. rewrite Hh, Hn. simpl.
  apply not_empty in Hh, Hn.
  destruct (integral_spec haystack) as (hs & Hhs & Hhok); [lia | lia |].
  destruct (integral_spec needle) as (nsum & Hnsum & Hnok); [lia | lia |].
  rewrite Hhs, Hnsum.
  pose proof Hnok as (Hnr & Hnc & Hcell).
  rewrite Hnr, Hnc, Hcell by lia. unfold cell_value.
  replace (Mat3b.cols needle - 1 + 1) with (Mat3b.cols needle) by lia.
  replace (Mat3b.rows needle - 1 + 1) with (Mat3b.rows needle) by lia.
  fold (total_sum needle).
  destruct (scan_deque_inv haystack needle hs nsum (wrap32 (total_sum needle)))
    as (deq & Hscan & _); [assumption | assumption | lia | lia |].
  rewrite Hscan. exists hs, nsum, deq.
  split; [reflexivity|]. split; [reflexivity|]. split; [exact Hhok|].
  split; [exact Hnok|]. split; [exact Hscan | reflexivity].
Qed.

(** ** The sum of absolute differences *)

Lemma pix_sad_range c1 c2 : 0 <= pix_sad c1 c2 <= 765.
Proof. unfold pix_sad. channel_bounds. lia. Qed.

Lemma sad_px_exact c1 c2 s :
  0 <= s -> s + 765 < 18446744073709551616 -> sad_px c1 c2 s = s + pix_sad c1 c2.
Proof.
  intros Hs Hbound. unfold sad_px, pix_sad, to_ull. channel_bounds.
  rewrite (Z.mod_small (s + _)) by lia.
  rewrite (Z.mod_small (s + _ + _)) by lia.
  rewrite (Z.mod_small (s + _ + _ + _)) by lia. lia.
Qed.

Lemma sad_row_exact (f g : Z -> Vec3b.t) w s :
  0 <= w -> 0 <= s -> s + w * 765 < 18446744073709551616 ->
  for_ w (fun i s => sad_px (f i) (g i) s) s
  = s + sum_range w (fun i => pix_sad (f i) (g i)).
Proof.
  intros Hw Hs. pattern w. apply Z_bound_ind; [| |exact Hw].
  - intros _. rewrite for_nonpos, sum_range_nonpos by lia. lia.
  - intros k Hk IH Hbound. rewrite for_succ, sum_range_succ by exact Hk.
    rewrite IH by lia.
    pose proof (sum_range_bounds k (fun i => pix_sad (f i) (g i)) 0 765 Hk
                  (fun i _ => pix_sad_range (f i) (g i))).
    rewrite sad_px_exact by lia. lia.
Qed.

Lemma exact_sad_range haystack needle cx cy :
  0 <= Mat3b.rows needle -> 0 <= Mat3b.cols needle ->
  0 <= exact_sad haystack needle cx cy <= Mat3b.rows needle * Mat3b.cols needle * 765.
Proof.
  intros Hr Hc. unfold exact_sad.
  pose proof (sum_range_bounds (Mat3b.rows needle)
    (fun j => sum_range (Mat3b.cols needle) (fun i =>
       pix_sad (Mat3b.at_ haystack (cx + i) (cy + j)) (Mat3b.at_ needle i j)))
    0 (Mat3b.cols needle * 765) Hr) as H.
  rewrite <- Z.mul_assoc. rewrite Z.mul_0_r in H. apply H. intros j _.
  pose proof (sum_range_bounds (Mat3b.cols needle)
    (fun i => pix_sad (Mat3b.at_ haystack (cx + i) (cy + j)) (Mat3b.at_ needle i j))
    0 765 Hc (fun i _ => pix_sad_range _ _)).
  lia.
Qed.

(** While it fits an [unsigned long long], [s] is the exact sum of absolute
    differences. *)
Lemma sad_exact haystack needle cx cy :
  0 <= Mat3b.rows needle -> 0 <= Mat3b.cols needle ->
  Mat3b.rows needle * Mat3b.cols needle * 765 < 18446744073709551616 ->
  sad haystack needle cx cy = exact_sad haystack needle cx cy.
Proof.
  intros Hr Hc Hbound. unfold sad, exact_sad.
  set (row j := sum_range (Mat3b.cols needle) (fun i =>
         pix_sad (Mat3b.at_ haystack (cx + i) (cy + j)) (Mat3b.at_ needle i j))).
  assert (Hrow : forall j, 0 <= row j <= Mat3b.cols needle * 765).
  { intros j. unfold row.
    pose proof (sum_range_bounds (Mat3b.cols needle)
      (fun i => pix_sad (Mat3b.at_ haystack (cx + i) (cy + j)) (Mat3b.at_ needle i j))
      0 765 Hc (fun i _ => pix_sad_range _ _)).
    lia. }
  enough (H : forall h, 0 <= h -> h <= Mat3b.rows needle ->
    for_ h (fun j s => for_ (Mat3b.cols needle) (fun i s =>
       sad_px (Mat3b.at_ haystack (cx + i) (cy + j)) (Mat3b.at_ needle i j) s) s) 0
    = sum_range h row) by (apply H; lia).
  intros h Hh. pattern h. apply Z_bound_ind; [| |exact Hh].
  - intros _. rewrite for_nonpos, sum_range_nonpos by lia. reflexivity.
  - intros k Hk IH Hle. rewrite for_succ, sum_range_succ by exact Hk.
    rewrite IH by lia.
    pose proof (sum_range_bounds k row 0 (Mat3b.cols needle * 765) Hk
                  (fun j _ => Hrow j)).
    rewrite (sad_row_exact (fun i => Mat3b.at_ haystack (cx + i) (cy + k))
                           (fun i => Mat3b.at_ needle i k)) by nia.
    reflexivity.
Qed.

(** ** The reported location *)

(** The location the brute force reports is the one it started from or the
    one of a candidate of [deq]. *)
Lemma brute_force_location (L : Z -> Z -> Prop) haystack needle max deq :
  Forall (fun c => L (item.x c) (item.y c)) deq ->
  forall st, L (found.rx st) (found.ry st) ->
    L (found.rx (brute_force haystack needle max deq st))
      (found.ry (brute_force haystack needle max deq st)).
Proof.
  induction 1 as [|c rest Hc Hrest IH]; intros st Hst; simpl; [exact Hst|].
  set (s := sad haystack needle (item.x c) (item.y c)).
  destruct (s <? to_ull (found.min st)); destruct (s =? 0); try apply IH; assumption.
Qed.

Lemma refine_location (L : Z -> Z -> Prop) haystack needle deq :
  Forall (fun c => L (item.x c) (item.y c)) deq ->
  L (-1) (-1) ->
  L (found.rx (refine haystack needle deq)) (found.ry (refine haystack needle deq)).
Proof.
  intros Hdeq Hnone. unfold refine.
  assert (Hshort : L (found.rx (shortcut deq)) (found.ry (shortcut deq))).
  { unfold shortcut. destruct Hdeq as [|c rest Hc _]; [exact Hnone|].
    destruct (item.diff c =? 0); [exact Hc | exact Hnone]. }
  destruct (Qeq_bool _ 1); [exact Hshort|].
  apply brute_force_location; assumption.
Qed.

(** ** Claims on the candidate list *)

Lemma throughout_scan_intro haystack needle ns (P : list item.t -> Prop) :
  Mat3b.empty haystack = false -> Mat3b.empty needle = false ->
  (forall deq,
     (length deq <= 50)%nat -> StronglySorted ranked deq ->
     Forall (in_scan_range (Mat3b.rows haystack - Mat3b.rows needle)
                           (Mat3b.cols haystack - Mat3b.cols needle)) deq ->
     P deq) ->
  throughout_scan haystack needle ns P.
Proof.
  intros Hh Hn HP. apply not_empty in Hh, Hn.
  destruct (integral_spec haystack) as (hs & Hhs & Hhok); [lia | lia |].
  destruct (integral_spec needle) as (nsum & Hnsum & Hnok); [lia | lia |].
  pose proof Hhok as (Hhr & Hhc & _). pose proof Hnok as (Hnr & Hnc & _).
  exists hs, nsum. split; [exact Hhs|]. split; [exact Hnsum|]. split.
  - intros y x Hy Hx.
    destruct (scan_until_deque_inv haystack needle hs nsum ns Hhok Hnok) with (y := y) (x := x)
      as (deq & Hrun & Hlen & Hsorted & Hseen); [lia | lia | lia | lia |].
    exists deq. split; [exact Hrun|]. apply HP; [exact Hlen | exact Hsorted |].
    rewrite <- Hhr, <- Hhc, <- Hnr, <- Hnc.
    eapply Forall_impl; [exact Hseen|]. intros c [Hc _]. exact Hc.
  - destruct (scan_deque_inv haystack needle hs nsum ns Hhok Hnok)
      as (deq & Hrun & Hlen & Hsorted & Hrange); [lia | lia |].
    exists deq. split; [exact Hrun|]. apply HP; [exact Hlen | exact Hsorted |].
    rewrite <- Hhr, <- Hhc, <- Hnr, <- Hnc. exact Hrange.
Qed.

(** C6. At every point of the scan (when the loops reach column [x] of row
    [y], between two windows), and after the full scan, the candidate list has
    at most 50 elements and is in ascending order of [diff]; the candidates of
    equal [diff] that it holds are in the order in which the scan found
    them. *)
Theorem C6_candidate_list_bounded_sorted_stable haystack needle ns :
  Mat3b.empty haystack = false -> Mat3b.empty needle = false ->
  throughout_scan haystack needle ns
    (fun deq => (length deq <= 50)%nat /\ sorted_stable deq).
Proof.
  intros Hh Hn. apply throughout_scan_intro; [exact Hh | exact Hn |].
  intros deq Hlen Hsorted _. split; [exact Hlen|].
  apply StronglySorted_ranked_lookup, Hsorted.
Qed.

Lemma C6_witness :
  throughout_scan hay_demo needle_demo 1
    (fun deq => (length deq <= 50)%nat /\ sorted_stable deq).
Proof.
  apply (C6_candidate_list_bounded_sorted_stable hay_demo needle_demo 1); reflexivity.
Defined.

(** C10. Every candidate placed in the list has its coordinates in the scan
    range, so the brute force reads the haystack inside its bounds for every
    candidate; and the location [main] reports is the pair of -1 or a
    position of the scan range. *)
Theorem C10_candidates_in_scan_range haystack needle ns :
  Mat3b.empty haystack = false -> Mat3b.empty needle = false ->
  throughout_scan haystack needle ns
    (Forall (fun c =>
       in_scan_range (Mat3b.rows haystack - Mat3b.rows needle)
                     (Mat3b.cols haystack - Mat3b.cols needle) c /\
       accesses_in_bounds haystack needle c)) /\
  exists result rx ry,
    main haystack needle = Some (Result result rx ry) /\
    ((rx = -1 /\ ry = -1) \/
     (0 <= rx < Mat3b.cols haystack - Mat3b.cols needle /\
      0 <= ry < Mat3b.rows haystack - Mat3b.rows needle)).
Proof.
  intros Hh Hn. split.
  - apply throughout_scan_intro; [exact Hh | exact Hn |].
    intros deq _ _ Hrange. eapply Forall_impl; [exact Hrange|].
    intros c Hc. split; [exact Hc|]. intros i j Hi Hj.
    unfold in_scan_range in Hc. lia.
  - destruct (main_run haystack needle Hh Hn)
      as (hs & nsum & deq & Hhs & Hnsum & Hhok & Hnok & Hscan & Hmain).
    apply not_empty in Hh, Hn.
    destruct (scan_deque_inv haystack needle hs nsum (wrap32 (total_sum needle))
                Hhok Hnok) as (deq' & Hscan' & _ & _ & Hrange); [lia | lia |].
    assert (deq' = deq) as -> by congruence.
    destruct Hhok as (Hhr & Hhc & _). destruct Hnok as (Hnr & Hnc & _).
    rewrite Hhr, Hhc, Hnr, Hnc in Hrange.
    do 3 eexists. split; [exact Hmain|].
    apply (refine_location (fun rx ry =>
      (rx = -1 /\ ry = -1) \/
      (0 <= rx < Mat3b.cols haystack - Mat3b.cols needle /\
       0 <= ry < Mat3b.rows haystack - Mat3b.rows needle))).
    + eapply Forall_impl; [exact Hrange|]. intros c Hc. right. exact Hc.
    + left. split; reflexivity.
Qed.

Lemma C10_witness :
  throughout_scan hay_demo needle_demo 1
    (Forall (fun c => in_scan_range 2 2 c /\ accesses_in_bounds hay_demo needle_demo c)) /\
  exists result rx ry,
    main hay_demo needle_demo = Some (Result result rx ry) /\
    ((rx = -1 /\ ry = -1) \/ (0 <= rx < 2 /\ 0 <= ry < 2)).
Proof.
  apply (C10_candidates_in_scan_range hay_demo needle_demo 1); reflexivity.
Defined.

(** C7. When the needle is at least as high or at least as wide as the
    haystack, the scan range is empty and [deq] stays empty; on the empty list
    the refinement leaves [result] 0, [min] and the location (-1, -1) as they
    were set, and [main] ends with them, without any failure. *)
Theorem C7_oversized_needle_not_found haystack needle :
  Mat3b.empty haystack = false -> Mat3b.empty needle = false ->
  Mat3b.rows haystack <= Mat3b.rows needle \/ Mat3b.cols haystack <= Mat3b.cols needle ->
  (exists haystack_sum needle_sum,
     tpl.integral haystack = Some haystack_sum /\
     tpl.integral needle = Some needle_sum /\
     scan haystack_sum needle_sum (wrap32 (total_sum needle)) = Some []) /\
  refine haystack needle [] = not_found /\
  main haystack needle = Some (Result 0 (-1) (-1)).
Proof.
  intros Hh Hn Hbig.
  destruct (main_run haystack needle Hh Hn)
    as (hs & nsum & deq & Hhs & Hnsum & Hhok & Hnok & Hscan & Hmain).
  assert (Hempty : scan hs nsum (wrap32 (total_sum needle)) = Some []).
  { apply scan_empty. destruct Hhok as (-> & -> & _). destruct Hnok as (-> & -> & _). lia. }
  assert (deq = []) as -> by congruence.
  split; [|split; [reflexivity | exact Hmain]].
  exists hs, nsum. repeat split; assumption.
Qed.

Lemma C7_witness :
  (exists haystack_sum needle_sum,
     tpl.integral needle_demo = Some haystack_sum /\
     tpl.integral hay_demo = Some needle_sum /\
     scan haystack_sum needle_sum (wrap32 (total_sum hay_demo)) = Some []) /\
  refine needle_demo hay_demo [] = not_found /\
  main needle_demo hay_demo = Some (Result 0 (-1) (-1)).
Proof.
  apply (C7_oversized_needle_not_found needle_demo hay_demo);
    [reflexivity | reflexivity | left; vm_compute; discriminate].
Defined.

Lemma insert_before_not_smaller itm deq :
  Forall (fun c => item.diff c <= item.diff itm) deq ->
  insert_before (item.diff itm) itm deq = deq.
Proof.
  induction 1 as [|it rest Hit Hrest IH]; simpl; [reflexivity|].
  destruct (Z.ltb_spec (item.diff itm) (item.diff it)); [lia|]. rewrite IH. reflexivity.
Qed.

(** C9. A candidate whose [diff] is not smaller than the [diff] of any element
    of a non-empty list is not inserted: the list stays as it is, also when it
    holds fewer than 50 elements.  So the list after the scan need not hold
    the lowest candidates: on [hay_demo] four windows are scored and the list
    ends with one element, without the candidate of column 1, row 0. *)
Theorem C9_not_smaller_candidate_is_discarded itm deq :
  deq <> [] -> (length deq <= 50)%nat ->
  Forall (fun c => item.diff c <= item.diff itm) deq ->
  push_candidate itm deq = deq /\
  exists haystack_sum needle_sum deq' c,
    tpl.integral hay_demo = Some haystack_sum /\
    tpl.integral needle_demo = Some needle_sum /\
    scan haystack_sum needle_sum (wrap32 (total_sum needle_demo)) = Some deq' /\
    length deq' = 1%nat /\
    candidate haystack_sum 1 1 (wrap32 (total_sum needle_demo)) 0 1 = Some c /\
    ~ In c deq'.
Proof.
  intros Hne Hlen Hall. split.
  - unfold push_candidate. destruct deq as [|it rest]; [contradiction|].
    change (0 <? Z.of_nat (length (it :: rest))) with true. cbv iota.
    rewrite insert_before_not_smaller by exact Hall.
    destruct (Z.ltb_spec 50 (Z.of_nat (length (it :: rest)))); [lia | reflexivity].
  - do 4 eexists.
    split; [vm_compute; reflexivity|].
    split; [vm_compute; reflexivity|].
    split; [vm_compute; reflexivity|].
    split; [reflexivity|].
    split; [vm_compute; reflexivity|].
    intros [H|[]]. discriminate H.
Qed.

Lemma C9_witness :
  push_candidate (item.mk 5 1 0 6) [item.mk 1 0 0 2] = [item.mk 1 0 0 2] /\
  exists haystack_sum needle_sum deq' c,
    tpl.integral hay_demo = Some haystack_sum /\
    tpl.integral needle_demo = Some needle_sum /\
    scan haystack_sum needle_sum (wrap32 (total_sum needle_demo)) = Some deq' /\
    length deq' = 1%nat /\
    candidate haystack_sum 1 1 (wrap32 (total_sum needle_demo)) 0 1 = Some c /\
    ~ In c deq'.
Proof.
  apply (C9_not_smaller_candidate_is_discarded (item.mk 5 1 0 6) [item.mk 1 0 0 2]).
  - discriminate.
  - simpl. lia.
  - repeat constructor. simpl. lia.
Defined.

(** C4 fails on the code.  On [hay_demo] the list is one candidate of [diff] 1
    when the scan reaches column 1 of row 0; that window is scored with
    [diff] 5, and the list after it is the same one candidate: the scored
    candidate was not inserted, although the list is far from 50 elements. *)
Theorem C4_scored_candidate_is_not_inserted :
  exists haystack_sum needle_sum,
    tpl.integral hay_demo = Some haystack_sum /\
    tpl.integral needle_demo = Some needle_sum /\
    scan_until haystack_sum needle_sum 1 0 1 = Some [item.mk 1 0 0 2] /\
    candidate haystack_sum 1 1 1 0 1 = Some (item.mk 5 1 0 6) /\
    scan_until haystack_sum needle_sum 1 0 2 = Some [item.mk 1 0 0 2] /\
    scan haystack_sum needle_sum 1 = Some [item.mk 1 0 0 2].
Proof.
  do 2 eexists.
  split; [vm_compute; reflexivity|].
  split; [vm_compute; reflexivity|].
  repeat split; vm_compute; reflexivity.
Qed.

(** C1 fails on the code.  On [hay_demo], for the window of one pixel at
    column 0, row 0, the four lookups give 2, the sum of the pixel at column 1,
    row 1, and not 1, the sum of the pixel of the window. *)
Theorem C1_window_sum_is_of_the_next_window :
  exists haystack_sum,
    tpl.integral hay_demo = Some haystack_sum /\
    window_sum haystack_sum 1 1 0 0 = Some 2 /\
    rect_sum hay_demo 0 0 1 1 = 1 /\
    rect_sum hay_demo 1 1 1 1 = 2.
Proof.
  eexists. split; [vm_compute; reflexivity|].
  repeat split; vm_compute; reflexivity.
Qed.

(** What the four lookups compute: for a window whose lookups are inside the
    integral image, the sum, brought into the range of [int], of the window
    of the same size one column to the right and one row down. *)
Theorem window_sum_is_of_shifted_window haystack x y nw nh :
  Mat3b.empty haystack = false ->
  0 <= x -> 0 <= y -> 0 <= nw -> 0 <= nh ->
  x + nw < Mat3b.cols haystack -> y + nh < Mat3b.rows haystack ->
  exists haystack_sum,
    tpl.integral haystack = Some haystack_sum /\
    window_sum haystack_sum nh nw y x
    = Some (wrap32 (rect_sum haystack (x + 1) (y + 1) nw nh)).
Proof.
  intros Hh Hx Hy Hnw Hnh Hxw Hyh. apply not_empty in Hh.
  destruct (integral_spec haystack) as (hs & Hhs & Hhok); [lia | lia |].
  exists hs. split; [exact Hhs|]. apply window_sum_spec; assumption.
Qed.

Lemma window_sum_is_of_shifted_window_witness :
  exists haystack_sum,
    tpl.integral hay_demo = Some haystack_sum /\
    window_sum haystack_sum 1 1 0 0
    = Some (wrap32 (rect_sum hay_demo (0 + 1) (0 + 1) 1 1)).
Proof.
  apply (window_sum_is_of_shifted_window hay_demo 0 0 1 1);
    try reflexivity; vm_compute; discriminate.
Defined.

(** ** Claims on the integral image *)

Lemma pix_sum_range m x y : 0 <= pix_sum m x y <= 765.
Proof. unfold pix_sum. cbv zeta. channel_bounds. lia. Qed.

Lemma rect_sum_range m x0 y0 w h :
  0 <= w -> 0 <= h -> 0 <= rect_sum m x0 y0 w h <= h * w * 765.
Proof.
  intros Hw Hh. unfold rect_sum.
  pose proof (sum_range_bounds h
    (fun j => sum_range w (fun i => pix_sum m (x0 + i) (y0 + j))) 0 (w * 765) Hh) as H.
  rewrite <- Z.mul_assoc. rewrite Z.mul_0_r in H. apply H. intros j _.
  pose proof (sum_range_bounds w (fun i => pix_sum m (x0 + i) (y0 + j)) 0 765 Hw
                (fun i _ => pix_sum_range m _ _)).
  lia.
Qed.

Lemma rect_sum_uniform r c v x0 y0 w h :
  0 <= w -> 0 <= h ->
  rect_sum (uniform r c v) x0 y0 w h
  = h * (w * (uc (Vec3b.val0 v) + uc (Vec3b.val1 v) + uc (Vec3b.val2 v))).
Proof.
  intros Hw Hh. unfold rect_sum, pix_sum, uniform. cbn [Mat3b.at_].
  rewrite sum_range_const by exact Hh. rewrite sum_range_const by exact Hw.
  reflexivity.
Qed.

(** C5, amended. The matrix [tpl::integral] builds has the dimensions of the
    image, and its cell at column [x], row [y] holds the sum of all channels of
    the pixels of [0, x] x [0, y] brought into the range of [int]; it is that
    sum itself when 765 * rows * cols fits an [int], and then the bottom-right
    cell is the sum of all channels of all pixels. *)
Theorem C5_integral_cell_is_wrapped_sum src x y :
  Mat3b.empty src = false ->
  0 <= x < Mat3b.cols src -> 0 <= y < Mat3b.rows src ->
  exists sum,
    tpl.integral src = Some sum /\
    Mat1i.rows sum = Mat3b.rows src /\
    Mat1i.cols sum = Mat3b.cols src /\
    Mat1i.at_pt sum x y = Some (wrap32 (rect_sum src 0 0 (x + 1) (y + 1))) /\
    (Mat3b.rows src * Mat3b.cols src * 765 <= INT_MAX ->
     Mat1i.at_pt sum x y = Some (rect_sum src 0 0 (x + 1) (y + 1)) /\
     Mat1i.at_pt sum (Mat3b.cols src - 1) (Mat3b.rows src - 1) = Some (total_sum src)).
Proof.
  intros Hsrc Hx Hy. apply not_empty in Hsrc.
  destruct (integral_spec src) as (sum & Hrun & Hr & Hc & Hcell); [lia | lia |].
  exists sum. repeat split; try assumption.
  - unfold Mat1i.at_pt. apply Hcell; assumption.
  - unfold Mat1i.at_pt. rewrite Hcell by assumption. unfold cell_value.
    rewrite wrap32_id; [reflexivity|].
    pose proof (rect_sum_range src 0 0 (x + 1) (y + 1)). unfold INT_MAX in *. nia.
  - unfold Mat1i.at_pt. rewrite Hcell by lia. unfold cell_value, total_sum.
    replace (Mat3b.cols src - 1 + 1) with (Mat3b.cols src) by lia.
    replace (Mat3b.rows src - 1 + 1) with (Mat3b.rows src) by lia.
    rewrite wrap32_id; [reflexivity|].
    pose proof (rect_sum_range src 0 0 (Mat3b.cols src) (Mat3b.rows src)).
    unfold INT_MAX in *. lia.
Qed.

Lemma C5_witness :
  exists sum,
    tpl.integral hay_demo = Some sum /\
    Mat1i.rows sum = 3 /\
    Mat1i.cols sum = 3 /\
    Mat1i.at_pt sum 2 1 = Some (wrap32 (rect_sum hay_demo 0 0 (2 + 1) (1 + 1))) /\
    (3 * 3 * 765 <= INT_MAX ->
     Mat1i.at_pt sum 2 1 = Some (rect_sum hay_demo 0 0 (2 + 1) (1 + 1)) /\
     Mat1i.at_pt sum (3 - 1) (3 - 1) = Some (total_sum hay_demo)).
Proof.
  apply (C5_integral_cell_is_wrapped_sum hay_demo 2 1);
    [reflexivity | simpl; lia | simpl; lia].
Defined.

(** C5 as stated fails on [white_big]: the bottom-right cell of its integral
    image is not the sum of its channels. *)
Lemma C5_counterexample :
  Mat3b.empty white_big = false /\
  total_sum white_big = 2148120000 /\
  exists sum,
    tpl.integral white_big = Some sum /\
    Mat1i.at_pt sum 1999 1403 = Some (-2146847296) /\
    Mat1i.at_pt sum 1999 1403 <> Some (rect_sum white_big 0 0 (1999 + 1) (1403 + 1)).
Proof.
  assert (Htotal : rect_sum white_big 0 0 2000 1404 = 2148120000).
  { unfold white_big. rewrite rect_sum_uniform by lia. reflexivity. }
  split; [reflexivity|]. split; [exact Htotal|].
  destruct (integral_spec white_big) as (sum & Hrun & _ & _ & Hcell);
    [simpl; lia | simpl; lia |].
  exists sum. split; [exact Hrun|].
  assert (Hval : Mat1i.at_pt sum 1999 1403 = Some (-2146847296)).
  { unfold Mat1i.at_pt. rewrite Hcell by (simpl; lia). unfold cell_value.
    change (1999 + 1) with 2000. change (1403 + 1) with 1404.
    rewrite Htotal. reflexivity. }
  split; [exact Hval|]. rewrite Hval.
  change (1999 + 1) with 2000. change (1403 + 1) with 1404.
  rewrite Htotal. discriminate.
Qed.

(** ** Rounding to [float] *)

Lemma rne_bounds q : Qfloor q <= rne q <= Qfloor q + 1.
Proof.
  unfold rne. destruct (_ ?= _)%Q; [destruct (Z.even _)| |]; lia.
Qed.

Lemma rne_mono q1 q2 : (q1 <= q2)%Q -> rne q1 <= rne q2.
Proof.
  intros Hle. pose proof (Qfloor_resp_le _ _ Hle) as Hf.
  destruct (Z.eq_dec (Qfloor q1) (Qfloor q2)) as [Heq|Hne].
  - unfold rne. rewrite <- Heq.
    destruct (Qcompare_spec (q1 - inject_Z (Qfloor q1)) (1 # 2)) as [H1|H1|H1];
      destruct (Qcompare_spec (q2 - inject_Z (Qfloor q1)) (1 # 2)) as [H2|H2|H2];
      try destruct (Z.even (Qfloor q1)); try lia; exfalso; lra.
  - pose proof (rne_bounds q1). pose proof (rne_bounds q2). lia.
Qed.

Lemma rne_inject_Z z : rne (inject_Z z) = z.
Proof.
  unfold rne. rewrite Qfloor_Z.
  destruct (Qcompare_spec (inject_Z z - inject_Z z) (1 # 2)) as [H|H|H];
    [exfalso; lra | reflexivity | exfalso; lra].
Qed.

Lemma pow2_pos e : (0 < 2 ^ e)%Q.
Proof. apply Qpower_0_lt. reflexivity. Qed.

Lemma pow2_plus a b : (2 ^ (a + b) == 2 ^ a * 2 ^ b)%Q.
Proof. apply Qpower_plus. discriminate. Qed.

Lemma pow2_le a b : a <= b -> (2 ^ a <= 2 ^ b)%Q.
Proof. intros H. apply Qpower_le_compat_l; [exact H | discriminate]. Qed.

Lemma pow2_lt a b : a < b -> (2 ^ a < 2 ^ b)%Q.
Proof. intros H. apply Qpower_lt_compat_l; [exact H | reflexivity]. Qed.

Lemma pow2_Z n : 0 <= n -> (inject_Z (2 ^ n) == 2 ^ n)%Q.
Proof. intros H. rewrite Zpower_Qpower by exact H. reflexivity. Qed.

(** A quotient of positive integers below a quotient of powers of two. *)
Lemma Zdiv_lt_pow2 n d a b :
  0 < d -> 0 <= a -> 0 <= b -> n * 2 ^ b < 2 ^ a * d ->
  (inject_Z n / inject_Z d < 2 ^ (a - b))%Q.
Proof.
  intros Hd Ha Hb H.
  assert (Hd' : (0 < inject_Z d)%Q) by (change 0%Q with (inject_Z 0); rewrite <- Zlt_Qlt; exact Hd).
  apply Qlt_shift_div_r; [exact Hd'|].
  apply (Qmult_lt_r _ _ (2 ^ b)); [apply pow2_pos|].
  assert (Hswap : (2 ^ (a - b) * inject_Z d * 2 ^ b == 2 ^ (a - b) * 2 ^ b * inject_Z d)%Q)
    by ring.
  rewrite Hswap.
  rewrite <- pow2_plus. replace (a - b + b) with a by lia.
  rewrite <- !pow2_Z by assumption. rewrite <- !inject_Z_mult, <- Zlt_Qlt. exact H.
Qed.

Lemma Zdiv_ge_pow2 n d a b :
  0 < d -> 0 <= a -> 0 <= b -> 2 ^ a * d <= n * 2 ^ b ->
  (2 ^ (a - b) <= inject_Z n / inject_Z d)%Q.
Proof.
  intros Hd Ha Hb H.
  assert (Hd' : (0 < inject_Z d)%Q) by (change 0%Q with (inject_Z 0); rewrite <- Zlt_Qlt; exact Hd).
  apply Qle_shift_div_l; [exact Hd'|].
  apply (Qmult_le_r _ _ (2 ^ b)); [apply pow2_pos|].
  assert (Hswap : (2 ^ (a - b) * inject_Z d * 2 ^ b == 2 ^ (a - b) * 2 ^ b * inject_Z d)%Q)
    by ring.
  rewrite Hswap.
  rewrite <- pow2_plus. replace (a - b + b) with a by lia.
  rewrite <- !pow2_Z by assumption. rewrite <- !inject_Z_mult, <- Zle_Qle. exact H.
Qed.

Lemma ilog2_spec q : (0 < q)%Q -> (2 ^ ilog2 q <= q < 2 ^ (ilog2 q + 1))%Q.
Proof.
  destruct q as [n d]. intros Hq.
  assert (Hn : 0 < n) by (unfold Qlt in Hq; simpl in Hq; lia).
  unfold ilog2. cbn [Qnum Qden].
  pose proof (Z.log2_spec n Hn) as Hln.
  pose proof (Z.log2_spec (Z.pos d) (Pos2Z.is_pos d)) as Hld.
  pose proof (Z.log2_nonneg n) as Ha. pose proof (Z.log2_nonneg (Z.pos d)) as Hb.
  set (a := Z.log2 n) in *. set (b := Z.log2 (Z.pos d)) in *.
  rewrite !(Qmake_Qdiv n d).
  destruct (Qle_bool (2 ^ (a - b)) (inject_Z n / inject_Z (Z.pos d))) eqn:Hk.
  - apply Qle_bool_iff in Hk. split; [exact Hk|].
    replace (a - b + 1) with (Z.succ a - b) by lia.
    apply Zdiv_lt_pow2; try lia. nia.
  - split.
    + replace (a - b - 1) with (a - Z.succ b) by lia.
      apply Zdiv_ge_pow2; try lia. nia.
    + replace (a - b - 1 + 1) with (a - b) by lia.
      apply Qnot_le_lt. intros Hle. apply Qle_bool_iff in Hle. congruence.
Qed.

Lemma ilog2_mono q1 q2 : (0 < q1)%Q -> (q1 <= q2)%Q -> ilog2 q1 <= ilog2 q2.
Proof.
  intros H1 Hle.
  assert (H2 : (0 < q2)%Q) by lra.
  pose proof (ilog2_spec q1 H1) as [Hlo1 _]. pose proof (ilog2_spec q2 H2) as [_ Hhi2].
  destruct (Z_lt_le_dec (ilog2 q2) (ilog2 q1)) as [Hlt|]; [|assumption].
  pose proof (pow2_le (ilog2 q2 + 1) (ilog2 q1) ltac:(lia)). exfalso. lra.
Qed.

Lemma Qabs_of_pos q : (0 < q)%Q -> Qabs q = q.
Proof.
  destruct q as [n d]. intros Hq. unfold Qabs. rewrite Z.abs_eq; [reflexivity|].
  unfold Qlt in Hq. simpl in Hq. lia.
Qed.

Lemma round24_of_pos q :
  (0 < q)%Q ->
  (round24 q == inject_Z (rne (q / 2 ^ ulp_exp q)) * 2 ^ ulp_exp q)%Q.
Proof.
  intros Hq. unfold round24.
  destruct (Qeq_bool q 0) eqn:H0.
  - apply Qeq_bool_iff in H0. exfalso. lra.
  - cbv zeta. rewrite Qred_correct. reflexivity.
Qed.

Lemma div_pow2_le q1 q2 e : (q1 <= q2)%Q -> (q1 / 2 ^ e <= q2 / 2 ^ e)%Q.
Proof.
  intros H. unfold Qdiv. apply Qmult_le_compat_r; [exact H|].
  apply Qinv_le_0_compat, Qlt_le_weak, pow2_pos.
Qed.

Lemma pow2_div a b : (2 ^ a / 2 ^ b == 2 ^ (a - b))%Q.
Proof. symmetry. apply Qpower_minus. discriminate. Qed.

Lemma round24_mono_pos q1 q2 :
  (0 < q1)%Q -> (q1 <= q2)%Q -> (round24 q1 <= round24 q2)%Q.
Proof.
  intros H1 Hle. assert (H2 : (0 < q2)%Q) by lra.
  rewrite (round24_of_pos q1 H1), (round24_of_pos q2 H2).
  pose proof (ilog2_mono q1 q2 H1 Hle) as Hmono.
  pose proof (ilog2_spec q1 H1) as [_ Hhi1]. pose proof (ilog2_spec q2 H2) as [Hlo2 _].
  unfold ulp_exp. rewrite (Qabs_of_pos q1 H1), (Qabs_of_pos q2 H2).
  set (e1 := Z.max (ilog2 q1 - 23) (-149)). set (e2 := Z.max (ilog2 q2 - 23) (-149)).
  destruct (Z.eq_dec e1 e2) as [Heq|Hne].
  - rewrite <- Heq. apply Qmult_le_compat_r; [|apply Qlt_le_weak, pow2_pos].
    rewrite <- Zle_Qle. apply rne_mono, div_pow2_le, Hle.
  - assert (He2 : e2 = ilog2 q2 - 23) by lia.
    assert (He1 : e1 < e2) by lia.
    apply (Qle_trans _ (2 ^ ilog2 q2)).
    + (* the rounding of q1 stays at or below the power of two *)
      assert (Hq1 : (q1 / 2 ^ e1 <= inject_Z (2 ^ (ilog2 q2 - e1)))%Q).
      { rewrite pow2_Z by lia. rewrite <- pow2_div. apply div_pow2_le.
        pose proof (pow2_le (ilog2 q1 + 1) (ilog2 q2) ltac:(lia)). lra. }
      apply rne_mono in Hq1. rewrite rne_inject_Z in Hq1.
      apply (Qle_trans _ (inject_Z (2 ^ (ilog2 q2 - e1)) * 2 ^ e1)).
      * apply Qmult_le_compat_r; [|apply Qlt_le_weak, pow2_pos].
        rewrite <- Zle_Qle. exact Hq1.
      * rewrite pow2_Z by lia. rewrite <- pow2_plus.
        replace (ilog2 q2 - e1 + e1) with (ilog2 q2) by lia. apply Qle_refl.
    + (* the rounding of q2 stays at or above it *)
      assert (Hq2 : (inject_Z (2 ^ 23) <= q2 / 2 ^ e2)%Q).
      { rewrite pow2_Z by lia. replace 23 with (ilog2 q2 - e2) at 1 by lia.
        rewrite <- pow2_div. apply div_pow2_le, Hlo2. }
      apply rne_mono in Hq2. rewrite rne_inject_Z in Hq2.
      apply (Qle_trans _ (inject_Z (2 ^ 23) * 2 ^ e2)).
      * rewrite pow2_Z by lia. rewrite <- pow2_plus.
        replace (23 + e2) with (ilog2 q2) by lia. apply Qle_refl.
      * apply Qmult_le_compat_r; [|apply Qlt_le_weak, pow2_pos].
        rewrite <- Zle_Qle. exact Hq2.
Qed.

Lemma round24_nonneg q : (0 <= q)%Q -> (0 <= round24 q)%Q.
Proof.
  intros Hq. unfold round24. destruct (Qeq_bool q 0) eqn:H0; [apply Qle_refl|].
  cbv zeta. rewrite Qred_correct.
  apply Qmult_le_0_compat; [|apply Qlt_le_weak, pow2_pos].
  change 0%Q with (inject_Z 0). rewrite <- Zle_Qle.
  rewrite <- (rne_inject_Z 0). apply rne_mono.
  apply Qle_shift_div_l; [apply pow2_pos|].
  change (inject_Z 0) with 0%Q. rewrite Qmult_0_l. exact Hq.
Qed.

(** Integers above 2^24 lose their last bits, and a tie goes to the even
    significand. *)
Lemma round24_samples :
  float_of_int 16777216 = 16777216%Q /\ float_of_int 16777217 = 16777216%Q /\
  float_of_int 16777219 = 16777220%Q /\ float_of_int (-16777219) = (-16777220)%Q /\
  round24 (1 # 3) = (11184811 # 33554432)%Q.
Proof. vm_compute. repeat split. Qed.

Lemma round24_1 : round24 1 = 1%Q.
Proof. vm_compute. reflexivity. Qed.

Lemma round24_le_1 q : (0 <= q <= 1)%Q -> (0 <= round24 q <= 1)%Q.
Proof.
  intros [H0 H1]. split; [apply round24_nonneg, H0|].
  destruct (Qeq_bool q 0) eqn:Hz.
  - unfold round24. rewrite Hz. discriminate.
  - apply Qeq_bool_neq in Hz.
    apply (Qle_trans _ (round24 1)); [|rewrite round24_1; apply Qle_refl].
    apply round24_mono_pos; [|exact H1].
    destruct (Qle_lt_or_eq _ _ H0) as [Hlt|Heq]; [exact Hlt|]. exfalso. apply Hz. symmetry. exact Heq.
Qed.

Lemma float_of_int_mono a b : 0 <= a <= b -> (0 <= float_of_int a <= float_of_int b)%Q.
Proof.
  intros [Ha Hab]. unfold float_of_int.
  assert (Ha' : (0 <= inject_Z a)%Q) by (change 0%Q with (inject_Z 0); rewrite <- Zle_Qle; exact Ha).
  split; [apply round24_nonneg, Ha'|].
  destruct (Z.eq_dec a 0) as [->|Hne].
  - apply round24_nonneg. change 0%Q with (inject_Z 0). rewrite <- Zle_Qle. lia.
  - apply round24_mono_pos.
    + change 0%Q with (inject_Z 0). rewrite <- Zlt_Qlt. lia.
    + rewrite <- Zle_Qle. exact Hab.
Qed.

Lemma float_of_int_ge_1 b : 1 <= b -> (1 <= float_of_int b)%Q.
Proof.
  intros Hb. unfold float_of_int.
  apply (Qle_trans _ (round24 1)); [rewrite round24_1; apply Qle_refl|].
  apply round24_mono_pos; [reflexivity|].
  change 1%Q with (inject_Z 1). rewrite <- Zle_Qle. exact Hb.
Qed.

Lemma confidence_range s m :
  0 <= s <= m -> 0 < m -> (0 <= confidence s m <= 1)%Q.
Proof.
  intros Hs Hm. unfold confidence, fsub, fdiv.
  pose proof (float_of_int_mono s m Hs) as [HA HAB].
  pose proof (float_of_int_ge_1 m ltac:(lia)) as HB.
  set (A := float_of_int s) in *. set (B := float_of_int m) in *.
  assert (Hq : (0 <= A / B <= 1)%Q).
  { split.
    - apply Qle_shift_div_l; lra.
    - apply Qle_shift_div_r; lra. }
  apply round24_le_1 in Hq. apply round24_le_1. lra.
Qed.

(** ** Claims on the result *)

Lemma max_sad_exact needle :
  0 < Mat3b.rows needle -> 0 < Mat3b.cols needle ->
  Mat3b.rows needle * Mat3b.cols needle * 765 <= INT_MAX ->
  max_sad needle = Mat3b.rows needle * Mat3b.cols needle * 765.
Proof.
  intros Hr Hc Hbound. unfold max_sad, mul32, INT_MAX in *.
  rewrite (wrap32_id (Mat3b.rows needle * Mat3b.cols needle)) by nia.
  rewrite (wrap32_id (_ * 255)) by nia.
  rewrite wrap32_id by nia. lia.
Qed.

Section BruteForce.

Variables haystack needle : Mat3b.t.

Hypothesis needle_rows : 0 < Mat3b.rows needle.
Hypothesis needle_cols : 0 < Mat3b.cols needle.
Hypothesis needle_fits : Mat3b.rows needle * Mat3b.cols needle * 765 <= INT_MAX.

Lemma sad_range cx cy : 0 <= sad haystack needle cx cy <= max_sad needle.
Proof.
  rewrite max_sad_exact by assumption. unfold INT_MAX in *.
  rewrite sad_exact by lia. apply exact_sad_range; lia.
Qed.

Lemma brute_force_range deq : forall st,
  (0 <= found.result st <= 1)%Q -> 0 <= found.min st <= INT_MAX ->
  (0 <= found.result (brute_force haystack needle (max_sad needle) deq st) <= 1)%Q.
Proof.
  induction deq as [|c rest IH]; intros st Hres Hmin; simpl; [exact Hres|].
  pose proof (sad_range (item.x c) (item.y c)) as Hs.
  set (s := sad haystack needle (item.x c) (item.y c)) in *.
  assert (Hmax : 0 < max_sad needle <= INT_MAX).
  { rewrite max_sad_exact by assumption. nia. }
  assert (Hres' : (0 <= confidence (wrap32 s) (max_sad needle) <= 1)%Q).
  { unfold INT_MAX in *. rewrite wrap32_id by lia. apply confidence_range; lia. }
  assert (Hmin' : 0 <= wrap32 s <= INT_MAX).
  { unfold INT_MAX in *. rewrite wrap32_id by lia. lia. }
  destruct (s <? to_ull (found.min st)); destruct (s =? 0);
    try apply IH; assumption.
Qed.

Lemma refine_range deq :
  (0 <= found.result (refine haystack needle deq) <= 1)%Q.
Proof.
  unfold refine.
  assert (Hshort : (0 <= found.result (shortcut deq) <= 1)%Q /\
                   found.min (shortcut deq) = INT_MAX).
  { unfold shortcut. destruct deq as [|c rest]; [|destruct (item.diff c =? 0)];
      simpl; repeat split; discriminate. }
  destruct Hshort as [Hres Hmin].
  destruct (Qeq_bool _ 1); [exact Hres|].
  apply brute_force_range; [exact Hres|]. rewrite Hmin. unfold INT_MAX. lia.
Qed.

End BruteForce.

(** C8, amended. For images of non-zero area whose needle has
    rows * cols * 765 within [int], [main] ends with a [result] between 0 and
    1, and no sum of absolute differences exceeds [max]. *)
Theorem C8_confidence_between_0_and_1 haystack needle :
  Mat3b.empty haystack = false -> Mat3b.empty needle = false ->
  Mat3b.rows needle * Mat3b.cols needle * 765 <= INT_MAX ->
  (forall cx cy, 0 <= sad haystack needle cx cy <= max_sad needle) /\
  exists result rx ry,
    main haystack needle = Some (Result result rx ry) /\
    (0 <= result <= 1)%Q.
Proof.
  intros Hh Hn Hfits. pose proof (not_empty needle Hn) as [Hnr Hnc]. split.
  - intros cx cy. apply sad_range; assumption.
  - destruct (main_run haystack needle Hh Hn) as (hs & nsum & deq & _ & _ & _ & _ & _ & Hmain).
    do 3 eexists. split; [exact Hmain|]. apply refine_range; assumption.
Qed.

Lemma C8_witness :
  (forall cx cy, 0 <= sad hay_demo needle_demo cx cy <= max_sad needle_demo) /\
  exists result rx ry,
    main hay_demo needle_demo = Some (Result result rx ry) /\
    (0 <= result <= 1)%Q.
Proof.
  apply (C8_confidence_between_0_and_1 hay_demo needle_demo);
    [reflexivity | reflexivity | vm_compute; discriminate].
Defined.

(** The scan of a haystack one row and one column larger than the needle
    scores one window. *)
Lemma scan_one_window haystack needle haystack_sum needle_sum ns :
  is_integral haystack haystack_sum -> is_integral needle needle_sum ->
  0 <= Mat3b.rows needle -> 0 <= Mat3b.cols needle ->
  Mat3b.rows haystack - Mat3b.rows needle = 1 ->
  Mat3b.cols haystack - Mat3b.cols needle = 1 ->
  scan haystack_sum needle_sum ns
  = let s := wrap32 (rect_sum haystack 1 1 (Mat3b.cols needle) (Mat3b.rows needle)) in
    Some [item.mk (abs32 (sub32 s ns)) 0 0 s].
Proof.
  intros Hh Hn Hnr Hnc HR HC.
  pose proof Hh as (Hhr & Hhc & _). pose proof Hn as (Hnr' & Hnc' & _).
  rewrite scan_until_end, Hhr, Hnr', HR.
  change (scan_until haystack_sum needle_sum ns 1 0)
    with (scan_until haystack_sum needle_sum ns (0 + 1) 0).
  rewrite (scan_until_next_row haystack_sum needle_sum ns 0) by lia.
  rewrite Hhc, Hnc', HC.
  change (scan_until haystack_sum needle_sum ns 0 1)
    with (scan_until haystack_sum needle_sum ns 0 (0 + 1)).
  rewrite (scan_until_next_px haystack_sum needle_sum ns 0 0) by lia.
  change (scan_until haystack_sum needle_sum ns 0 0) with (Some (@nil item.t)).
  unfold scan_px.
  rewrite (candidate_spec haystack needle) by (try assumption; lia).
  reflexivity.
Qed.

Lemma exact_sad_uniform r c v r' c' v' cx cy :
  0 <= r' -> 0 <= c' ->
  exact_sad (uniform r c v) (uniform r' c' v') cx cy = r' * (c' * pix_sad v v').
Proof.
  intros Hr Hc. unfold exact_sad, uniform. cbn [Mat3b.at_ Mat3b.rows Mat3b.cols].
  rewrite sum_range_const by exact Hr. rewrite sum_range_const by exact Hc.
  reflexivity.
Qed.

(** The brute force on a list of one candidate whose [diff] is not 0. *)
Lemma refine_single haystack needle c :
  item.diff c <> 0 ->
  0 < sad haystack needle (item.x c) (item.y c) < INT_MAX ->
  refine haystack needle [c]
  = found.mk (confidence (sad haystack needle (item.x c) (item.y c)) (max_sad needle))
             (sad haystack needle (item.x c) (item.y c)) (item.x c) (item.y c).
Proof.
  intros Hdiff Hs. unfold refine, shortcut.
  destruct (Z.eqb_spec (item.diff c) 0) as [|_]; [contradiction|].
  cbn [found.result]. change (Qeq_bool 0 1) with false. cbv iota.
  cbn [brute_force found.min].
  set (s := sad haystack needle (item.x c) (item.y c)) in *.
  change (to_ull INT_MAX) with INT_MAX.
  destruct (Z.ltb_spec s INT_MAX) as [_|]; [|lia].
  destruct (Z.eqb_spec s 0) as [|_]; [lia|].
  unfold INT_MAX in *. rewrite wrap32_id by lia. reflexivity.
Qed.

(** C8 as stated fails on [hay_big] and [needle_big]: the candidate list holds
    one candidate, the brute force finds the sum 2808000, [max] is negative,
    and [result] is 2099895 / 2097152, above 1. *)
Lemma C8_counterexample :
  Mat3b.empty hay_big = false /\ Mat3b.empty needle_big = false /\
  max_sad needle_big = -2146847296 /\
  exists haystack_sum needle_sum,
    tpl.integral hay_big = Some haystack_sum /\
    tpl.integral needle_big = Some needle_sum /\
    scan haystack_sum needle_sum (wrap32 (total_sum needle_big))
    = Some [item.mk 2808000 0 0 2808000] /\
    main hay_big needle_big = Some (Result (2099895 # 2097152) 0 0) /\
    (1 < 2099895 # 2097152)%Q.
Proof.
  split; [reflexivity|]. split; [reflexivity|]. split; [reflexivity|].
  destruct (main_run hay_big needle_big)
    as (hs & nsum & deq & Hhs & Hnsum & Hhok & Hnok & Hscan & Hmain);
    [reflexivity | reflexivity |].
  assert (Hns : wrap32 (total_sum needle_big) = 0).
  { unfold total_sum, needle_big. rewrite rect_sum_uniform by (simpl; lia). reflexivity. }
  assert (Hdeq : deq = [item.mk 2808000 0 0 2808000]).
  { rewrite (scan_one_window hay_big needle_big) in Hscan
      by (try assumption; simpl; lia).
    rewrite Hns in Hscan. unfold hay_big, needle_big in Hscan.
    rewrite rect_sum_uniform in Hscan by (simpl; lia).
    injection Hscan as <-. reflexivity. }
  assert (Hsad : sad hay_big needle_big 0 0 = 2808000).
  { rewrite sad_exact by (simpl; lia). unfold hay_big, needle_big.
    rewrite exact_sad_uniform by lia. reflexivity. }
  subst deq. exists hs, nsum.
  split; [exact Hhs|]. split; [exact Hnsum|]. split; [exact Hscan|]. split.
  - rewrite Hmain, refine_single.
    + cbn [found.result found.rx found.ry item.x item.y]. rewrite Hsad.
      vm_compute. reflexivity.
    + discriminate.
    + cbn [item.x item.y]. rewrite Hsad. unfold INT_MAX. lia.
  - reflexivity.
Qed.

(** ** The first candidate of the list *)

Lemma push_candidate_empty itm : push_candidate itm [] = [itm].
Proof. reflexivity. Qed.

Lemma removelast_cons {A : Type} (a : A) (l : list A) :
  l <> [] -> removelast (a :: l) = a :: removelast l.
Proof. destruct l; [contradiction | reflexivity]. Qed.

(** The first element after a window: the new candidate when its [diff] is
    smaller than the one of the first element, the first element otherwise. *)
Lemma push_candidate_head itm c rest :
  exists tail,
    push_candidate itm (c :: rest)
    = (if item.diff itm <? item.diff c then itm else c) :: tail.
Proof.
  unfold push_candidate.
  change (0 <? Z.of_nat (length (c :: rest))) with true. cbv iota.
  cbn [insert_before].
  destruct (item.diff itm <? item.diff c).
  - destruct (50 <? Z.of_nat (length (itm :: c :: rest))).
    + unfold pop_back. rewrite removelast_cons by discriminate. eexists. reflexivity.
    + eexists. reflexivity.
  - destruct (Z.ltb_spec 50 (Z.of_nat (length (c :: insert_before (item.diff itm) itm rest))))
      as [Hlong|_].
    + unfold pop_back. rewrite removelast_cons; [eexists; reflexivity|].
      intros Hnil. rewrite Hnil in Hlong. simpl in Hlong. lia.
    + eexists. reflexivity.
Qed.

Section FirstCandidate.

Variables haystack needle : Mat3b.t.
Variables haystack_sum needle_sum : Mat1i.t.
Variable ns : Z.

Hypothesis haystack_ok : is_integral haystack haystack_sum.
Hypothesis needle_ok : is_integral needle needle_sum.
Hypothesis needle_rows : 0 <= Mat3b.rows needle.
Hypothesis needle_cols : 0 <= Mat3b.cols needle.

Local Abbreviation R := (Mat1i.rows haystack_sum - Mat1i.rows needle_sum).
Local Abbreviation C := (Mat1i.cols haystack_sum - Mat1i.cols needle_sum).
Local Abbreviation cand :=
  (candidate haystack_sum (Mat1i.rows needle_sum) (Mat1i.cols needle_sum) ns).

Lemma first_inv_start : first_inv haystack_sum needle_sum ns 0 0 [].
Proof.
  split; [exact Logic.I|]. intros y' x' c' Hy' Hx' Hbefore _.
  unfold pos_before in Hbefore. lia.
Qed.

Lemma first_inv_px y x deq itm :
  0 <= y < R -> 0 <= x < C -> first_inv haystack_sum needle_sum ns y x deq -> cand y x = Some itm ->
  first_inv haystack_sum needle_sum ns y (x + 1) (push_candidate itm deq).
Proof.
  intros Hy Hx [Hhead Hmin] Hitm.
  destruct (candidate_coords haystack_sum needle_sum ns y x itm Hitm) as [Hix Hiy].
  assert (Hself : in_scan_range R C itm /\
                  pos_before (item.y itm) (item.x itm) y (x + 1) /\
                  cand (item.y itm) (item.x itm) = Some itm).
  { rewrite Hix, Hiy. unfold in_scan_range, pos_before. rewrite Hix, Hiy.
    repeat split; try lia. exact Hitm. }
  destruct deq as [|c rest].
  - rewrite push_candidate_empty. split; [exact Hself|].
    intros y' x' c' Hy' Hx' Hbefore Hc'.
    assert (Hhere : y' = y /\ x' = x).
    { destruct (Z.eq_dec y' y) as [->|Hne]; [destruct (Z.eq_dec x' x) as [->|Hne]|].
      - split; reflexivity.
      - destruct (Hmin y x' c') as (c & rest & Habs & _);
          [lia | lia | unfold pos_before in *; lia | exact Hc' | discriminate Habs].
      - destruct (Hmin y' x' c') as (c & rest & Habs & _);
          [lia | lia | unfold pos_before in *; lia | exact Hc' | discriminate Habs]. }
    destruct Hhere as [-> ->]. rewrite Hitm in Hc'. injection Hc' as <-.
    exists itm, []. split; [reflexivity|]. right. split; [reflexivity|].
    rewrite Hix, Hiy. unfold pos_before. lia.
  - destruct (push_candidate_head itm c rest) as (tail & ->).
    destruct Hhead as (Hcrange & Hcseen & Hccand).
    destruct (Z.ltb_spec (item.diff itm) (item.diff c)) as [Hlt|Hge].
    + split; [exact Hself|].
      intros y' x' c' Hy' Hx' Hbefore Hc'. exists itm, tail. split; [reflexivity|].
      destruct (Z.eq_dec y' y) as [->|Hney]; [destruct (Z.eq_dec x' x) as [->|Hnex]|].
      * rewrite Hitm in Hc'. injection Hc' as <-. right. split; [reflexivity|].
        rewrite Hix, Hiy. unfold pos_before. lia.
      * destruct (Hmin y x' c') as (c0 & rest0 & [= <- <-] & Hle);
          [lia | lia | unfold pos_before in *; lia | exact Hc' |].
        left. lia.
      * destruct (Hmin y' x' c') as (c0 & rest0 & [= <- <-] & Hle);
          [lia | lia | unfold pos_before in *; lia | exact Hc' |].
        left. lia.
    + split.
      { split; [exact Hcrange|]. split; [|exact Hccand]. unfold pos_before in *. lia. }
      intros y' x' c' Hy' Hx' Hbefore Hc'. exists c, tail. split; [reflexivity|].
      destruct (Z.eq_dec y' y) as [->|Hney]; [destruct (Z.eq_dec x' x) as [->|Hnex]|].
      * rewrite Hitm in Hc'. injection Hc' as <-.
        destruct (Z.eq_dec (item.diff c) (item.diff itm)) as [Heq|Hne]; [right|left; lia].
        split; [exact Heq|]. unfold pos_before in *. lia.
      * destruct (Hmin y x' c') as (c0 & rest0 & [= <- <-] & Hle);
          [lia | lia | unfold pos_before in *; lia | exact Hc' | exact Hle].
      * destruct (Hmin y' x' c') as (c0 & rest0 & [= <- <-] & Hle);
          [lia | lia | unfold pos_before in *; lia | exact Hc' | exact Hle].
Qed.

Lemma first_inv_row y deq :
  0 <= y < R -> 0 <= C -> first_inv haystack_sum needle_sum ns y C deq ->
  first_inv haystack_sum needle_sum ns (y + 1) 0 deq.
Proof.
  intros Hy HC [Hhead Hmin]. split.
  - destruct deq as [|c rest]; [exact Logic.I|].
    destruct Hhead as (Hrange & Hseen & Hcand).
    split; [exact Hrange|]. split; [|exact Hcand]. unfold pos_before in *. lia.
  - intros y' x' c' Hy' Hx' Hbefore Hc'. apply Hmin; try assumption.
    unfold pos_before in *. lia.
Qed.

(** After the scan, the first element of [deq] is the first of the windows of
    smallest [diff]. *)
Lemma scan_first_inv :
  0 <= R -> 0 <= C ->
  exists deq, scan haystack_sum needle_sum ns = Some deq /\
              first_inv haystack_sum needle_sum ns R 0 deq.
Proof.
  intros HR HC.
  apply (scan_inv haystack_sum needle_sum ns
           (candidate_defined haystack needle haystack_sum needle_sum ns
              haystack_ok needle_ok needle_rows needle_cols)
           (first_inv haystack_sum needle_sum ns) first_inv_start first_inv_px first_inv_row); assumption.
Qed.

End FirstCandidate.

(** ** Claims on a perfect match *)

Lemma copied_at_rect_sum haystack needle x0 y0 :
  copied_at haystack needle x0 y0 ->
  rect_sum haystack x0 y0 (Mat3b.cols needle) (Mat3b.rows needle) = total_sum needle.
Proof.
  intros Hcopy. unfold total_sum, rect_sum.
  apply sum_range_ext. intros j Hj. apply sum_range_ext. intros i Hi.
  unfold pix_sum. rewrite Hcopy by lia. rewrite !Z.add_0_l. reflexivity.
Qed.

Lemma abs32_sub32_nonneg a b :
  0 <= a <= INT_MAX -> 0 <= b <= INT_MAX -> 0 <= abs32 (sub32 a b).
Proof.
  unfold INT_MAX, abs32, sub32. intros Ha Hb.
  rewrite (wrap32_id (a - b)) by lia. rewrite wrap32_id by lia. lia.
Qed.

(** C2 fails on the code. When the sums of the haystack fit an [int] and the
    needle is copied in the haystack at ([x0], [y0]), below the first row and
    right of the first column, [main] ends with [result] 1 and never with the
    location ([x0], [y0]): the location is the one of a window scanned before,
    at the latest the window one column to the left and one row up, whose
    four lookups give the sum of the copy. *)
Theorem C2_copied_needle_is_reported_elsewhere haystack needle x0 y0 :
  Mat3b.empty haystack = false -> Mat3b.empty needle = false ->
  Mat3b.rows haystack * Mat3b.cols haystack * 765 <= INT_MAX ->
  1 <= x0 -> x0 + Mat3b.cols needle <= Mat3b.cols haystack ->
  1 <= y0 -> y0 + Mat3b.rows needle <= Mat3b.rows haystack ->
  copied_at haystack needle x0 y0 ->
  exists rx ry,
    main haystack needle = Some (Result 1 rx ry) /\
    pos_upto ry rx (y0 - 1) (x0 - 1) /\
    (rx, ry) <> (x0, y0).
Proof.
  intros Hh Hn Hfits Hx0 Hx1 Hy0 Hy1 Hcopy.
  destruct (main_run haystack needle Hh Hn)
    as (hs & nsum & deq & Hhs & Hnsum & Hhok & Hnok & Hscan & Hmain).
  apply not_empty in Hh, Hn.
  pose proof Hhok as (Hhr & Hhc & _). pose proof Hnok as (Hnr & Hnc & _).
  set (ns := wrap32 (total_sum needle)) in *.
  destruct (scan_first_inv haystack needle hs nsum ns Hhok Hnok)
    as (deq' & Hscan' & Hhead & Hmin); [lia | lia | lia | lia |].
  assert (deq' = deq) as -> by congruence.
  unfold head_scanned in Hhead. unfold head_first_min in Hmin.
  rewrite Hhr, Hhc, Hnr, Hnc in Hmin.
  (* the window whose lookups give the sum of the copy *)
  assert (Hcopy_cand :
    candidate hs (Mat3b.rows needle) (Mat3b.cols needle) ns (y0 - 1) (x0 - 1)
    = Some (item.mk 0 (x0 - 1) (y0 - 1) ns)).
  { rewrite <- Hnr, <- Hnc.
    rewrite (candidate_spec haystack needle) by (try assumption; lia).
    cbv zeta. replace (x0 - 1 + 1) with x0 by lia. replace (y0 - 1 + 1) with y0 by lia.
    rewrite copied_at_rect_sum by exact Hcopy. fold ns.
    unfold sub32. rewrite Z.sub_diag. reflexivity. }
  destruct (Hmin (y0 - 1) (x0 - 1) (item.mk 0 (x0 - 1) (y0 - 1) ns))
    as (c & rest & -> & Hle); [lia | lia | unfold pos_before; lia | exact Hcopy_cand |].
  rewrite Hhr, Hhc, Hnr, Hnc in Hhead.
  destruct Hhead as ((Hcx & Hcy) & _ & Hccand).
  (* the diff of the first candidate is not negative *)
  assert (Hnonneg : 0 <= item.diff c).
  { rewrite <- Hnr, <- Hnc in Hccand.
    rewrite (candidate_spec haystack needle) in Hccand by (try assumption; lia).
    cbv zeta in Hccand. injection Hccand as Hc.
    apply (f_equal item.diff) in Hc. cbn [item.diff] in Hc. rewrite <- Hc.
    pose proof (rect_sum_range haystack (item.x c + 1) (item.y c + 1)
                  (Mat3b.cols needle) (Mat3b.rows needle)).
    pose proof (rect_sum_range needle 0 0 (Mat3b.cols needle) (Mat3b.rows needle)).
    assert (Mat3b.rows needle * Mat3b.cols needle
            <= Mat3b.rows haystack * Mat3b.cols haystack) by nia.
    unfold ns, total_sum, INT_MAX in *.
    apply abs32_sub32_nonneg; unfold INT_MAX; rewrite wrap32_id; lia. }
  cbn [item.diff item.x item.y] in Hle.
  assert (Hzero : item.diff c = 0) by lia.
  assert (Hupto : pos_upto (item.y c) (item.x c) (y0 - 1) (x0 - 1)).
  { unfold pos_upto. unfold pos_before in Hle. lia. }
  assert (Hrefine : refine haystack needle (c :: rest)
                    = found.mk 1 INT_MAX (item.x c) (item.y c)).
  { unfold refine, shortcut. rewrite Hzero. reflexivity. }
  rewrite Hrefine in Hmain. simpl in Hmain.
  exists (item.x c), (item.y c).
  split; [exact Hmain|]. split; [exact Hupto|].
  intros [= Hx Hy]. unfold pos_upto in Hupto. lia.
Qed.

(** On [hay_spot] the needle is at column 2, row 2 and nowhere else, and
    [main] reports [result] 1 at column 1, row 1. *)
Lemma C2_witness :
  copied_at hay_spot needle_spot 2 2 /\
  (forall x y, 0 <= x < 4 -> 0 <= y < 4 ->
     copied_at hay_spot needle_spot x y -> x = 2 /\ y = 2) /\
  main hay_spot needle_spot = Some (Result 1 1 1) /\
  exists rx ry,
    main hay_spot needle_spot = Some (Result 1 rx ry) /\
    pos_upto ry rx (2 - 1) (2 - 1) /\
    (rx, ry) <> (2, 2).
Proof.
  assert (Hcopy : copied_at hay_spot needle_spot 2 2).
  { intros i j Hi Hj. cbn in Hi, Hj.
    assert (i = 0) as -> by lia. assert (j = 0) as -> by lia. reflexivity. }
  split; [exact Hcopy|]. split; [|split].
  - intros x y Hx Hy Hxy.
    specialize (Hxy 0 0 ltac:(cbn; lia) ltac:(cbn; lia)).
    rewrite !Z.add_0_r in Hxy. cbn in Hxy.
    destruct (Z.eqb_spec x 2) as [->|]; [destruct (Z.eqb_spec y 2) as [->|]|];
      [split; reflexivity | discriminate Hxy | discriminate Hxy].
  - vm_compute. reflexivity.
  - apply (C2_copied_needle_is_reported_elsewhere hay_spot needle_spot 2 2);
      try reflexivity; try (vm_compute; discriminate). exact Hcopy.
Defined.

(** ** The shortcut and the brute force *)

Lemma for_inv {S : Type} (P : S -> Prop) (body : Z -> S -> S) hi s :
  P s -> (forall i t, P t -> P (body i t)) -> P (for_ hi body s).
Proof.
  intros Hs Hbody. unfold for_. generalize 0. revert s Hs.
  induction (Z.to_nat hi) as [|n IH]; intros s Hs i; simpl; [exact Hs|].
  apply IH, Hbody, Hs.
Qed.

Lemma sad_nonneg haystack needle cx cy : 0 <= sad haystack needle cx cy.
Proof.
  unfold sad. apply for_inv; [lia|]. intros j t Ht. apply for_inv; [exact Ht|].
  intros i u _. unfold sad_px, to_ull. apply Z.mod_pos_bound. lia.
Qed.

(** What the rounding does to [result]: it is 0 for a sum one below a [max]
    of 17212500 (a needle of 150 x 150), and 1 for a sum of 1 and a [max] of
    33736500 (a needle of 210 x 210). *)
Lemma confidence_rounds :
  confidence 17212499 17212500 = 0%Q /\ confidence 1 33736500 = 1%Q.
Proof. vm_compute. split; reflexivity. Qed.

(** A sum of absolute differences of 0 gives [result] 1: the quotient of 0
    and a [max] other than 0 is 0. *)
Lemma confidence_of_0 max : max <> 0 -> confidence 0 max = 1%Q.
Proof.
  intros _. unfold confidence, fdiv. change (float_of_int 0) with 0%Q.
  assert (Hq : round24 (0 / float_of_int max) = 0%Q).
  { unfold round24.
    assert (Qeq_bool (0 / float_of_int max) 0 = true) as ->; [|reflexivity].
    apply Qeq_bool_iff. unfold Qdiv. apply Qmult_0_l. }
  rewrite Hq. vm_compute. reflexivity.
Qed.

Lemma brute_force_sad_0 haystack needle c rest :
  max_sad needle <> 0 ->
  sad haystack needle (item.x c) (item.y c) = 0 ->
  same_result (brute_force haystack needle (max_sad needle) (c :: rest) not_found)
              (found.mk 1 INT_MAX (item.x c) (item.y c)).
Proof.
  intros Hmax Hs. simpl. rewrite Hs.
  change (0 <? to_ull INT_MAX) with true. change (0 =? 0) with true. cbv iota.
  change (wrap32 0) with 0.
  split; [|split; reflexivity]. cbn [found.result].
  change (fsub 1 (fdiv (float_of_int 0) (float_of_int (max_sad needle))))
    with (confidence 0 (max_sad needle)).
  rewrite confidence_of_0 by exact Hmax. reflexivity.
Qed.

(** C3, amended. When the first candidate of a non-empty list has [diff] 0,
    the shortcut gives [result] 1 and the location of that candidate; the
    brute force over the same list gives the same [result] and location when
    the sum of absolute differences at that candidate is 0.  ([max] is not
    0, or the brute force would divide 0 by 0.) *)
Theorem C3_shortcut_agrees_when_sad_0 haystack needle c rest :
  item.diff c = 0 -> max_sad needle <> 0 ->
  sad haystack needle (item.x c) (item.y c) = 0 ->
  refine haystack needle (c :: rest) = found.mk 1 INT_MAX (item.x c) (item.y c) /\
  same_result (brute_force haystack needle (max_sad needle) (c :: rest) not_found)
              (refine haystack needle (c :: rest)).
Proof.
  intros Hdiff Hmax Hsad.
  assert (Hrefine : refine haystack needle (c :: rest)
                    = found.mk 1 INT_MAX (item.x c) (item.y c)).
  { unfold refine, shortcut. rewrite Hdiff. reflexivity. }
  split; [exact Hrefine|]. rewrite Hrefine. apply brute_force_sad_0; assumption.
Qed.

Lemma C3_witness :
  refine hay_gray needle_gray [item.mk 0 0 0 384]
  = found.mk 1 INT_MAX 0 0 /\
  same_result
    (brute_force hay_gray needle_gray (max_sad needle_gray) [item.mk 0 0 0 384] not_found)
    (refine hay_gray needle_gray [item.mk 0 0 0 384]).
Proof.
  apply (C3_shortcut_agrees_when_sad_0 hay_gray needle_gray (item.mk 0 0 0 384) []);
    [reflexivity | vm_compute; discriminate | vm_compute; reflexivity].
Defined.

(** C3 as stated fails on [hay_red] and [needle_green]: the list is one
    candidate of [diff] 0, the shortcut gives [result] 1, and the brute force
    over that list finds the sum 18 and gives the [result]
    8191229 / 8388608, the [float] of 1 - 18 / 765.  Every window of the
    haystack holds the same pixel. *)
Lemma C3_counterexample :
  exists haystack_sum needle_sum,
    tpl.integral hay_red = Some haystack_sum /\
    tpl.integral needle_green = Some needle_sum /\
    scan haystack_sum needle_sum (wrap32 (total_sum needle_green))
    = Some [item.mk 0 0 0 9] /\
    refine hay_red needle_green [item.mk 0 0 0 9] = found.mk 1 INT_MAX 0 0 /\
    brute_force hay_red needle_green (max_sad needle_green) [item.mk 0 0 0 9] not_found
    = found.mk (8191229 # 8388608) 18 0 0 /\
    ~ same_result
        (brute_force hay_red needle_green (max_sad needle_green)
           [item.mk 0 0 0 9] not_found)
        (refine hay_red needle_green [item.mk 0 0 0 9]).
Proof.
  do 2 eexists.
  split; [vm_compute; reflexivity|].
  split; [vm_compute; reflexivity|].
  split; [vm_compute; reflexivity|].
  split; [reflexivity|].
  split; [vm_compute; reflexivity|].
  intros (Hres & _). vm_compute in Hres. discriminate Hres.
Qed.

(** ** Further properties of the integral image, the scan and the refinement *)

(** What a loop keeps when every turn keeps it. *)
Lemma forM_from_keeps {S : Type} (Q : S -> Prop) (body : Z -> S -> option S) n :
  forall i s s',
    (forall k t t', i <= k < i + Z.of_nat n -> body k t = Some t' -> Q t -> Q t') ->
    Q s -> forM_from n i body s = Some s' -> Q s'.
Proof.
  induction n as [|n IH]; intros i s s' Hbody Hs Hrun; simpl in Hrun.
  - injection Hrun as <-. exact Hs.
  - destruct (body i s) as [s1|] eqn:Hb; [|discriminate].
    apply (IH (i + 1) s1 s'); [|eapply Hbody; [|exact Hb|exact Hs]; lia|exact Hrun].
    intros k t t' Hk. apply Hbody. lia.
Qed.

Lemma forM_keeps {S : Type} (Q : S -> Prop) (body : Z -> S -> option S) hi s s' :
  (forall k t t', 0 <= k < hi -> body k t = Some t' -> Q t -> Q t') ->
  Q s -> forM hi body s = Some s' -> Q s'.
Proof.
  intros Hbody. apply forM_from_keeps. intros k t t' Hk. apply Hbody. lia.
Qed.

Lemma integral_px_nothing_outside src y x st st' :
  0 <= y < Mat3b.rows src -> 0 <= x < Mat3b.cols src ->
  tpl.integral_px src y x st = Some st' ->
  nothing_outside src (snd st) -> nothing_outside src (snd st').
Proof.
  intros Hy Hx Hrun Hout. destruct st as [s sum]. unfold tpl.integral_px in Hrun.
  destruct (if 0 <? y then Mat1i.at_pt sum x (y - 1) else Some 0) as [a|]; [|discriminate].
  injection Hrun as <-. simpl in *. intros row col Hnot.
  unfold Mat1i.at_, Mat1i.set_pt. simpl.
  rewrite lookup_insert_ne; [apply Hout, Hnot|].
  intros [= <- <-]. apply Hnot. split; assumption.
Qed.

Lemma integral_row_nothing_outside src y sum sum' :
  0 <= y < Mat3b.rows src ->
  tpl.integral_row src y sum = Some sum' ->
  nothing_outside src sum -> nothing_outside src sum'.
Proof.
  intros Hy Hrun Hout. unfold tpl.integral_row in Hrun.
  destruct (forM (Mat3b.cols src) (tpl.integral_px src y) (0, sum)) as [[s sum1]|] eqn:Hloop;
    [|discriminate].
  injection Hrun as <-.
  apply (forM_keeps (fun st => nothing_outside src (snd st))
           (tpl.integral_px src y) (Mat3b.cols src) (0, sum) (s, sum1)
           (fun k t t' Hk Hb => integral_px_nothing_outside src y k t t' Hy Hk Hb)
           Hout Hloop).
Qed.

Lemma integral_nothing_outside src sum :
  tpl.integral src = Some sum -> nothing_outside src sum.
Proof.
  intros Hrun.
  apply (forM_keeps (nothing_outside src) _ _ _ _
           (fun k t t' Hk Hb => integral_row_nothing_outside src k t t' Hk Hb)
           (fun row col _ => lookup_empty _) Hrun).
Qed.

(** [tpl::integral] never fails, whatever the dimensions. *)
Lemma integral_runs src : exists sum, tpl.integral src = Some sum.
Proof.
  destruct (Z_lt_le_dec (Mat3b.rows src) 0) as [Hr|Hr].
  { eexists. apply forM_nonpos. lia. }
  destruct (Z_lt_le_dec (Mat3b.cols src) 0) as [Hc|Hc].
  - destruct (forM_inv (fun _ (_ : Mat1i.t) => True) (tpl.integral_row src) (Mat3b.rows src)
                (Mat1i.create (Mat3b.rows src) (Mat3b.cols src)) Hr Logic.I)
      as (sum & Hrun & _).
    + intros k t _ _. exists t. split; [|exact Logic.I].
      unfold tpl.integral_row. rewrite forM_nonpos by lia. reflexivity.
    + exists sum. exact Hrun.
  - destruct (integral_spec src Hr Hc) as (sum & Hrun & _). exists sum. exact Hrun.
Qed.

(** [tpl::integral] writes every cell of the matrix and no other cell: the
    cells that can be read afterwards are those of the rows and columns of
    the source. *)
Theorem integral_writes_the_matrix_only src :
  exists sum,
    tpl.integral src = Some sum /\
    forall row col,
      is_Some (Mat1i.at_ sum row col) <-> in_matrix src row col.
Proof.
  destruct (integral_runs src) as (sum & Hrun). exists sum. split; [exact Hrun|].
  intros row col. split.
  - intros Hsome. destruct (Z_lt_le_dec row 0) as [H1|H1];
      [|destruct (Z_lt_le_dec row (Mat3b.rows src)) as [H2|H2];
        [destruct (Z_lt_le_dec col 0) as [H3|H3];
          [|destruct (Z_lt_le_dec col (Mat3b.cols src)) as [H4|H4]]|]];
      try (split; lia);
      rewrite (integral_nothing_outside src sum Hrun row col) in Hsome
        by (unfold in_matrix; lia);
      destruct Hsome as [? [=]].
  - intros [Hrow Hcol].
    destruct (integral_spec src) as (sum' & Hrun' & _ & _ & Hcell); [lia | lia |].
    assert (sum' = sum) as -> by congruence.
    rewrite (Hcell col row) by assumption. eexists. reflexivity.
Qed.

Section Genuine.

Variables haystack needle : Mat3b.t.
Variables haystack_sum needle_sum : Mat1i.t.
Variable ns : Z.

Hypothesis haystack_ok : is_integral haystack haystack_sum.
Hypothesis needle_ok : is_integral needle needle_sum.
Hypothesis needle_rows : 0 <= Mat3b.rows needle.
Hypothesis needle_cols : 0 <= Mat3b.cols needle.

Lemma scan_genuine :
  exists deq,
    scan haystack_sum needle_sum ns = Some deq /\
    Forall (genuine haystack_sum needle_sum ns) deq.
Proof.
  destruct (Z_lt_le_dec 0 (Mat1i.rows haystack_sum - Mat1i.rows needle_sum)) as [HR|HR];
    [destruct (Z_lt_le_dec 0 (Mat1i.cols haystack_sum - Mat1i.cols needle_sum)) as [HC|HC]|].
  - apply (scan_inv haystack_sum needle_sum ns
             (candidate_defined haystack needle haystack_sum needle_sum ns
                haystack_ok needle_ok needle_rows needle_cols)
             (fun _ _ => Forall (genuine haystack_sum needle_sum ns))); try lia.
    + constructor.
    + intros y x deq itm _ _ Hdeq Hitm. apply Forall_push_candidate; [exact Hdeq|].
      destruct (candidate_coords haystack_sum needle_sum ns y x itm Hitm) as [Hx Hy].
      unfold genuine. rewrite Hx, Hy. exact Hitm.
    + intros y deq _ _ Hdeq. exact Hdeq.
  - exists []. rewrite scan_empty by (right; exact HC). split; [reflexivity | constructor].
  - exists []. rewrite scan_empty by (left; exact HR). split; [reflexivity | constructor].
Qed.

End Genuine.

Lemma sorted_genuine_distinct haystack_sum needle_sum ns deq :
  sorted_stable deq -> Forall (genuine haystack_sum needle_sum ns) deq ->
  distinct_windows deq.
Proof.
  intros Hsorted Hgen.
  assert (Hlt : forall (i j : nat) a b, (i < j)%nat -> deq !! i = Some a -> deq !! j = Some b ->
                  ~ (item.x a = item.x b /\ item.y a = item.y b)).
  { intros i j a b Hij Ha Hb [Hx Hy].
    destruct (Hsorted i j a b Hij Ha Hb) as [_ Hbefore].
    rewrite Forall_forall in Hgen.
    pose proof (Hgen a (list_elem_of_lookup_2 _ _ _ Ha)) as Ga.
    pose proof (Hgen b (list_elem_of_lookup_2 _ _ _ Hb)) as Gb.
    unfold genuine in Ga, Gb. rewrite Hx, Hy in Ga. rewrite Ga in Gb.
    injection Gb as <-. specialize (Hbefore eq_refl). unfold before in Hbefore. lia. }
  intros i j a b Hne Ha Hb Hsame.
  destruct (Nat.lt_total i j) as [Hij|[Heq|Hji]]; [|contradiction|].
  - exact (Hlt i j a b Hij Ha Hb Hsame).
  - apply (Hlt j i b a Hji Hb Ha). destruct Hsame. split; congruence.
Qed.

(** After the scan every element of the list is the candidate of its own
    window, a window of the scan range, and no window has two candidates in
    the list. *)
Theorem listed_candidates_are_distinct_windows haystack needle :
  Mat3b.empty haystack = false -> Mat3b.empty needle = false ->
  exists haystack_sum needle_sum deq,
    tpl.integral haystack = Some haystack_sum /\
    tpl.integral needle = Some needle_sum /\
    scan haystack_sum needle_sum (wrap32 (total_sum needle)) = Some deq /\
    Forall (fun c =>
      in_scan_range (Mat3b.rows haystack - Mat3b.rows needle)
                    (Mat3b.cols haystack - Mat3b.cols needle) c /\
      genuine haystack_sum needle_sum (wrap32 (total_sum needle)) c) deq /\
    distinct_windows deq.
Proof.
  intros Hh Hn.
  destruct (main_run haystack needle Hh Hn)
    as (hs & nsum & deq & Hhs & Hnsum & Hhok & Hnok & Hscan & _).
  apply not_empty in Hh, Hn.
  set (ns := wrap32 (total_sum needle)) in *.
  destruct (scan_deque_inv haystack needle hs nsum ns Hhok Hnok)
    as (deq1 & Hscan1 & _ & Hsorted & Hrange); [lia | lia |].
  destruct (scan_genuine haystack needle hs nsum ns Hhok Hnok)
    as (deq2 & Hscan2 & Hgen); [lia | lia |].
  assert (deq1 = deq) as -> by congruence. assert (deq2 = deq) as -> by congruence.
  exists hs, nsum, deq. split; [exact Hhs|]. split; [exact Hnsum|]. split; [exact Hscan|].
  split.
  - destruct Hhok as (Hhr & Hhc & _). destruct Hnok as (Hnr & Hnc & _).
    rewrite Hhr, Hhc, Hnr, Hnc in Hrange.
    apply Forall_and. split; assumption.
  - apply (sorted_genuine_distinct hs nsum ns); [|exact Hgen].
    apply StronglySorted_ranked_lookup, Hsorted.
Qed.

Lemma listed_candidates_are_distinct_windows_witness :
  exists haystack_sum needle_sum deq,
    tpl.integral hay_demo = Some haystack_sum /\
    tpl.integral needle_demo = Some needle_sum /\
    scan haystack_sum needle_sum (wrap32 (total_sum needle_demo)) = Some deq /\
    Forall (fun c =>
      in_scan_range (3 - 1) (3 - 1) c /\
      genuine haystack_sum needle_sum (wrap32 (total_sum needle_demo)) c) deq /\
    distinct_windows deq.
Proof.
  apply (listed_candidates_are_distinct_windows hay_demo needle_demo); reflexivity.
Defined.

Lemma scan_head_first_smallest haystack needle :
  Mat3b.empty haystack = false -> Mat3b.empty needle = false ->
  Mat3b.rows needle < Mat3b.rows haystack ->
  Mat3b.cols needle < Mat3b.cols haystack ->
  exists haystack_sum needle_sum c rest,
    tpl.integral haystack = Some haystack_sum /\
    tpl.integral needle = Some needle_sum /\
    scan haystack_sum needle_sum (wrap32 (total_sum needle)) = Some (c :: rest) /\
    in_scan_range (Mat3b.rows haystack - Mat3b.rows needle)
                  (Mat3b.cols haystack - Mat3b.cols needle) c /\
    genuine haystack_sum needle_sum (wrap32 (total_sum needle)) c /\
    first_smallest haystack needle haystack_sum c.
Proof.
  intros Hh Hn Hrows Hcols.
  destruct (main_run haystack needle Hh Hn)
    as (hs & nsum & deq & Hhs & Hnsum & Hhok & Hnok & Hscan & _).
  apply not_empty in Hh, Hn.
  pose proof Hhok as (Hhr & Hhc & _). pose proof Hnok as (Hnr & Hnc & _).
  set (ns := wrap32 (total_sum needle)) in *.
  destruct (scan_first_inv haystack needle hs nsum ns Hhok Hnok)
    as (deq' & Hscan' & Hhead & Hmin); [lia | lia | lia | lia |].
  assert (deq' = deq) as -> by congruence.
  unfold head_scanned in Hhead. unfold head_first_min in Hmin.
  rewrite Hhr, Hhc, Hnr, Hnc in Hmin.
  destruct (candidate_defined haystack needle hs nsum ns Hhok Hnok) with (y := 0) (x := 0)
    as (c0 & Hc0); [lia | lia | lia | lia |].
  rewrite Hnr, Hnc in Hc0.
  destruct (Hmin 0 0 c0) as (c & rest & -> & _);
    [lia | lia | unfold pos_before; lia | exact Hc0 |].
  rewrite Hhr, Hhc, Hnr, Hnc in Hhead. destruct Hhead as (Hrange & _ & Hcand).
  exists hs, nsum, c, rest.
  split; [exact Hhs|]. split; [exact Hnsum|]. split; [exact Hscan|].
  split; [exact Hrange|]. split; [unfold genuine; rewrite Hnr, Hnc; exact Hcand|].
  intros y x c' Hy Hx Hc'.
  destruct (Hmin y x c' Hy Hx) as (c1 & rest1 & [= <- <-] & Hle);
    [unfold pos_before; lia | exact Hc' | exact Hle].
Qed.

(** When the needle is lower and narrower than the haystack, the list after
    the scan is not empty and its first element is the candidate of the first
    window of the scan with the smallest [diff]. *)
Theorem first_listed_is_first_smallest haystack needle :
  Mat3b.empty haystack = false -> Mat3b.empty needle = false ->
  Mat3b.rows needle < Mat3b.rows haystack ->
  Mat3b.cols needle < Mat3b.cols haystack ->
  exists haystack_sum needle_sum c rest,
    tpl.integral haystack = Some haystack_sum /\
    tpl.integral needle = Some needle_sum /\
    scan haystack_sum needle_sum (wrap32 (total_sum needle)) = Some (c :: rest) /\
    in_scan_range (Mat3b.rows haystack - Mat3b.rows needle)
                  (Mat3b.cols haystack - Mat3b.cols needle) c /\
    genuine haystack_sum needle_sum (wrap32 (total_sum needle)) c /\
    first_smallest haystack needle haystack_sum c.
Proof. exact (scan_head_first_smallest haystack needle). Qed.

Lemma first_listed_is_first_smallest_witness :
  exists haystack_sum needle_sum c rest,
    tpl.integral hay_demo = Some haystack_sum /\
    tpl.integral needle_demo = Some needle_sum /\
    scan haystack_sum needle_sum (wrap32 (total_sum needle_demo)) = Some (c :: rest) /\
    in_scan_range (3 - 1) (3 - 1) c /\
    genuine haystack_sum needle_sum (wrap32 (total_sum needle_demo)) c /\
    first_smallest hay_demo needle_demo haystack_sum c.
Proof.
  apply (first_listed_is_first_smallest hay_demo needle_demo); reflexivity.
Defined.

(** On a haystack and a lower and narrower needle of the same single colour,
    every window has [diff] 0, and [main] reports [result] 1 at column 0,
    row 0, the first window of the scan. *)
Theorem uniform_images_found_at_first_window r c nr nc v :
  0 < nr -> nr < r -> 0 < nc -> nc < c ->
  main (uniform r c v) (uniform nr nc v) = Some (Result 1 0 0).
Proof.
  intros Hnr Hr Hnc Hc.
  set (haystack := uniform r c v). set (needle := uniform nr nc v).
  assert (Hh : Mat3b.empty haystack = false).
  { unfold Mat3b.empty. simpl. apply orb_false_iff. split; apply Z.leb_gt; lia. }
  assert (Hn : Mat3b.empty needle = false).
  { unfold Mat3b.empty. simpl. apply orb_false_iff. split; apply Z.leb_gt; lia. }
  destruct (main_run haystack needle Hh Hn)
    as (hs & nsum & deq & Hhs & Hnsum & Hhok & Hnok & Hscan & Hmain).
  destruct (scan_head_first_smallest haystack needle Hh Hn)
    as (hs' & nsum' & c0 & rest & Hhs' & Hnsum' & Hscan' & Hrange & Hgen & Hfirst);
    [exact Hr | exact Hc |].
  assert (hs' = hs) as -> by congruence. assert (nsum' = nsum) as -> by congruence.
  assert (deq = c0 :: rest) as -> by congruence.
  pose proof Hhok as (Hhr & Hhc & _). pose proof Hnok as (Hnr' & Hnc' & _).
  (* every window has diff 0 *)
  assert (Hzero : forall y x,
    0 <= y < Mat3b.rows haystack - Mat3b.rows needle ->
    0 <= x < Mat3b.cols haystack - Mat3b.cols needle ->
    candidate hs (Mat3b.rows needle) (Mat3b.cols needle) (wrap32 (total_sum needle)) y x
    = Some (item.mk 0 x y (wrap32 (total_sum needle)))).
  { intros y x Hy Hx. rewrite <- Hnr', <- Hnc'.
    rewrite (candidate_spec haystack needle) by (rewrite ?Hhr, ?Hhc, ?Hnr', ?Hnc'; simpl in *; lia || assumption).
    cbv zeta. unfold total_sum. unfold haystack at 1, needle at 1 2 3 4 5 6.
    rewrite !rect_sum_uniform by (simpl; lia).
    unfold sub32. rewrite Z.sub_diag. reflexivity. }
  unfold in_scan_range in Hrange.
  assert (Hc0 : item.diff c0 = 0).
  { unfold genuine in Hgen. rewrite Hnr', Hnc', Hzero in Hgen by lia.
    injection Hgen as <-. reflexivity. }
  assert (Hpos : item.x c0 = 0 /\ item.y c0 = 0).
  { destruct (Hfirst 0 0 (item.mk 0 0 0 (wrap32 (total_sum needle))))
      as [Hlt|[_ Hnot]];
      [simpl; lia | simpl; lia | apply Hzero; simpl; lia | simpl in Hlt; lia |].
    unfold pos_before in Hnot. lia. }
  rewrite Hmain. unfold refine, shortcut. rewrite Hc0. cbn.
  destruct Hpos as [-> ->]. reflexivity.
Qed.

Lemma uniform_images_found_at_first_window_witness :
  main hay_gray_50 needle_gray_5 = Some (Result 1 0 0).
Proof.
  apply (uniform_images_found_at_first_window 50 50 5 5 (px x80 x80 x80)); reflexivity.
Defined.

Section SmallestSad.

Variables haystack needle : Mat3b.t.

Hypothesis needle_rows : 0 < Mat3b.rows needle.
Hypothesis needle_cols : 0 < Mat3b.cols needle.
Hypothesis needle_fits : Mat3b.rows needle * Mat3b.cols needle * 765 <= INT_MAX.

Lemma sad_below_INT_MAX cx cy : 0 <= sad haystack needle cx cy < INT_MAX.
Proof.
  pose proof (sad_range haystack needle needle_rows needle_cols needle_fits cx cy) as H.
  rewrite max_sad_exact in H by assumption. unfold INT_MAX in *. lia.
Qed.

Lemma brute_force_smallest deq : forall st,
  0 <= found.min st <= INT_MAX ->
  let r := brute_force haystack needle (max_sad needle) deq st in
  (r = st /\
   Forall (fun c' => found.min st <= sad haystack needle (item.x c') (item.y c')) deq) \/
  (exists c, r = kept haystack needle c /\
             sad haystack needle (item.x c) (item.y c) < found.min st /\
             first_smallest_sad haystack needle deq c).
Proof.
  induction deq as [|c0 rest IH]; intros st Hmin; cbn zeta.
  { left. split; [reflexivity | constructor]. }
  cbn [brute_force].
  pose proof (sad_below_INT_MAX (item.x c0) (item.y c0)) as Hs.
  set (s := sad haystack needle (item.x c0) (item.y c0)) in *.
  assert (Hull : to_ull (found.min st) = found.min st).
  { unfold to_ull, INT_MAX in *. apply Z.mod_small. lia. }
  rewrite Hull. unfold INT_MAX in Hs. rewrite (wrap32_id s) by lia.
  assert (Hall0 : forall l, s = 0 ->
            Forall (fun c' => s <= sad haystack needle (item.x c') (item.y c')) l).
  { intros l ->. apply Forall_forall. intros c' _. apply sad_nonneg. }
  destruct (Z.ltb_spec s (found.min st)) as [Hlt|Hge].
  - (* the candidate is kept *)
    change (found.mk (fsub 1 (fdiv (float_of_int s) (float_of_int (max_sad needle))))
                     s (item.x c0) (item.y c0))
      with (kept haystack needle c0).
    destruct (Z.eqb_spec s 0) as [Hz|Hnz].
    + right. exists c0. split; [reflexivity|]. split; [exact Hlt|].
      exists [], rest. split; [reflexivity|]. split; [constructor | apply Hall0, Hz].
    + destruct (IH (kept haystack needle c0)) as [[-> Hrest]|(c & -> & Hc & front & back & -> & Hf & Hb)];
        [simpl; fold s; unfold INT_MAX; lia | |].
      * right. exists c0. split; [reflexivity|]. split; [exact Hlt|].
        exists [], rest. split; [reflexivity|]. split; [constructor | exact Hrest].
      * simpl in Hc. fold s in Hc. right. exists c. split; [reflexivity|]. split; [lia|].
        exists (c0 :: front), back. split; [reflexivity|].
        split; [constructor; [fold s; exact Hc | exact Hf] | exact Hb].
  - destruct (Z.eqb_spec s 0) as [Hz|Hnz].
    + left. split; [reflexivity|]. constructor; [fold s; lia|].
      eapply Forall_impl; [apply (Hall0 rest Hz)|]. intros c' Hc'. simpl in Hc'. lia.
    + destruct (IH st Hmin) as [[-> Hrest]|(c & -> & Hc & front & back & -> & Hf & Hb)].
      * left. split; [reflexivity|]. constructor; [fold s; lia | exact Hrest].
      * right. exists c. split; [reflexivity|]. split; [exact Hc|].
        exists (c0 :: front), back. split; [reflexivity|].
        split; [constructor; [fold s; lia | exact Hf] | exact Hb].
Qed.

End SmallestSad.

(** When the first candidate of the list does not have [diff] 0, the
    refinement keeps the first candidate of the list with the smallest sum of
    absolute differences: it reports its location, that sum as [min], and the
    [float] of 1 - min / max as [result].  (The needle has rows * cols * 765
    within [int].) *)
Theorem refine_keeps_first_smallest_sad haystack needle c0 rest :
  0 < Mat3b.rows needle -> 0 < Mat3b.cols needle ->
  Mat3b.rows needle * Mat3b.cols needle * 765 <= INT_MAX ->
  item.diff c0 <> 0 ->
  exists c,
    refine haystack needle (c0 :: rest) = kept haystack needle c /\
    first_smallest_sad haystack needle (c0 :: rest) c.
Proof.
  intros Hr Hc Hfits Hdiff.
  assert (Hrefine : refine haystack needle (c0 :: rest)
                    = brute_force haystack needle (max_sad needle) (c0 :: rest) not_found).
  { unfold refine, shortcut. destruct (Z.eqb_spec (item.diff c0) 0); [contradiction|].
    reflexivity. }
  rewrite Hrefine.
  destruct (brute_force_smallest haystack needle Hr Hc Hfits (c0 :: rest) not_found)
    as [[_ Hall]|(c & Hkept & _ & Hfirst)].
  - unfold not_found, INT_MAX. simpl. lia.
  - inversion Hall as [|? ? Habs _]; subst.
    pose proof (sad_below_INT_MAX haystack needle Hr Hc Hfits (item.x c0) (item.y c0)).
    simpl in Habs. lia.
  - exists c. split; assumption.
Qed.

Lemma refine_keeps_first_smallest_sad_witness :
  exists c,
    refine hay_demo needle_demo [item.mk 1 0 0 2; item.mk 5 1 0 6] = kept hay_demo needle_demo c /\
    first_smallest_sad hay_demo needle_demo [item.mk 1 0 0 2; item.mk 5 1 0 6] c.
Proof.
  apply (refine_keeps_first_smallest_sad hay_demo needle_demo
           (item.mk 1 0 0 2) [item.mk 5 1 0 6]);
    [reflexivity | reflexivity | vm_compute; discriminate | discriminate].
Defined.

(** ** The output and the exit status of [main] *)

(** What the brute force keeps of a state, when every state it can build
    from a candidate of the list has it. *)
Lemma brute_force_keeps (P : found.t -> Prop) haystack needle max deq :
  Forall (fun c => forall result min, P (found.mk result min (item.x c) (item.y c))) deq ->
  forall st, P st -> P (brute_force haystack needle max deq st).
Proof.
  induction 1 as [|c rest Hc Hrest IH]; intros st Hst; simpl; [exact Hst|].
  set (s := sad haystack needle (item.x c) (item.y c)).
  destruct (s <? to_ull (found.min st)); destruct (s =? 0);
    try apply IH; solve [apply Hc | exact Hst].
Qed.

(** When [result] is not 0, the location is the one of a candidate. *)
Lemma refine_found (L : Z -> Z -> Prop) haystack needle deq :
  Forall (fun c => L (item.x c) (item.y c)) deq ->
  Qeq_bool (found.result (refine haystack needle deq)) 0 = true \/
  L (found.rx (refine haystack needle deq)) (found.ry (refine haystack needle deq)).
Proof.
  intros Hdeq.
  set (P := fun st : found.t =>
    Qeq_bool (found.result st) 0 = true \/ L (found.rx st) (found.ry st)).
  assert (Hshort : P (shortcut deq)).
  { unfold shortcut. destruct Hdeq as [|c rest Hc _]; [left; reflexivity|].
    destruct (item.diff c =? 0); [right; exact Hc | left; reflexivity]. }
  unfold refine. destruct (Qeq_bool (found.result (shortcut deq)) 1); [exact Hshort|].
  apply (brute_force_keeps P); [|exact Hshort].
  eapply Forall_impl; [exact Hdeq|]. intros c Hc result min. right. exact Hc.
Qed.

(** On loaded images [main] ends normally, and the location it writes and the
    rectangle it draws are inside the haystack: the rectangle goes from the
    location to the pixel [needle.cols] to the right and [needle.rows] down,
    which is still a pixel of the haystack. *)
Theorem shown_rectangle_is_inside_haystack haystack needle :
  Mat3b.empty haystack = false -> Mat3b.empty needle = false ->
  exists result rx ry,
    main haystack needle = Some (Result result rx ry) /\
    Forall (inside_haystack haystack) (show_result needle result rx ry).
Proof.
  intros Hh Hn.
  destruct (main_run haystack needle Hh Hn)
    as (hs & nsum & deq & _ & _ & Hhok & Hnok & Hscan & Hmain).
  apply not_empty in Hh, Hn.
  destruct (scan_deque_inv haystack needle hs nsum (wrap32 (total_sum needle)) Hhok Hnok)
    as (deq' & Hscan' & _ & _ & Hrange); [lia | lia |].
  assert (deq' = deq) as -> by congruence.
  destruct Hhok as (Hhr & Hhc & _). destruct Hnok as (Hnr & Hnc & _).
  rewrite Hhr, Hhc, Hnr, Hnc in Hrange.
  do 3 eexists. split; [exact Hmain|].
  unfold show_result. constructor; [exact Logic.I|].
  destruct (refine_found
              (fun rx ry =>
                 0 <= rx < Mat3b.cols haystack - Mat3b.cols needle /\
                 0 <= ry < Mat3b.rows haystack - Mat3b.rows needle)
              haystack needle deq) as [Hzero|[Hx Hy]].
  - exact Hrange.
  - rewrite Hzero. constructor.
  - destruct (Qeq_bool _ 0); [constructor|].
    repeat constructor; simpl; lia.
Qed.

Lemma shown_rectangle_is_inside_haystack_witness :
  exists result rx ry,
    main hay_demo needle_demo = Some (Result result rx ry) /\
    Forall (inside_haystack hay_demo) (show_result needle_demo result rx ry).
Proof.
  apply (shown_rectangle_is_inside_haystack hay_demo needle_demo); reflexivity.
Defined.

(** [main] on two images, loaded or not, ends as a load failure or with a
    result. *)
Lemma main_ends haystack needle :
  main haystack needle = Some LoadFailed /\
  (Mat3b.empty haystack = true \/ Mat3b.empty needle = true) \/
  (exists result rx ry, main haystack needle = Some (Result result rx ry)) /\
  Mat3b.empty haystack = false /\ Mat3b.empty needle = false.
Proof.
  destruct (Mat3b.empty haystack) eqn:Hh; [|destruct (Mat3b.empty needle) eqn:Hn].
  - left. split; [|left; reflexivity]. unfold main. rewrite Hh. reflexivity.
  - left. split; [|right; reflexivity]. unfold main. rewrite Hh, Hn. reflexivity.
  - right. split; [|split; reflexivity].
    destruct (main_run haystack needle Hh Hn) as (hs & nsum & deq & _ & _ & _ & _ & _ & Hmain).
    do 3 eexists. exact Hmain.
Qed.

(** The exit status of [main] is 0 or 1; it is 0 exactly when more than one
    argument is given, the first is not empty and both images load, whatever
    the search finds.  With a single argument the help is shown. *)
Theorem main_exit_status imread argv :
  exists status output,
    main_argv imread argv = Some (status, output) /\
    (status = 0 \/ status = 1) /\
    (status = 0 <-> images_given imread argv) /\
    ((length argv <= 2)%nat -> output = [CerrHelp]).
Proof.
  unfold main_argv, images_given.
  destruct (Z.ltb_spec 2 (Z.of_nat (length argv))) as [Hargc|Hargc].
  - destruct (String.eqb_spec (nth 1 argv EmptyString) EmptyString) as [Hpath|Hpath].
    + do 2 eexists. split; [reflexivity|]. split; [right; reflexivity|].
      split; [|intros; lia]. split; [discriminate|]. intros (_ & Hne & _). contradiction.
    + destruct (main_ends (imread (nth 1 argv EmptyString)) (imread (nth 2 argv EmptyString)))
        as [[Hmain Hempty]|[(result & rx & ry & Hmain) [Hh Hn]]]; rewrite Hmain.
      * do 2 eexists. split; [reflexivity|]. split; [right; reflexivity|].
        split; [|intros; lia]. split; [discriminate|].
        intros (_ & _ & Hh & Hn). destruct Hempty; congruence.
      * do 2 eexists. split; [reflexivity|]. split; [left; reflexivity|].
        split; [|intros; lia]. split; [|reflexivity].
        intros _. repeat split; try assumption. lia.
  - cbn. do 2 eexists. split; [reflexivity|]. split; [right; reflexivity|].
    split; [|reflexivity]. split; [discriminate|]. intros (Hlen & _). lia.
Qed.

(** ** The walk of the face detector *)

Lemma readDir_entries mOutput detect name es path :
  Reader.readDir mOutput detect (Reader.Dir name (Some es)) path
  = readDir_loop mOutput detect path es false.
Proof. reflexivity. Qed.

(** Induction on a tree of directories. *)
Lemma node_tree_ind (P : Reader.node -> Prop) :
  (forall name, P (Reader.File name)) ->
  (forall name, P (Reader.Dir name None)) ->
  (forall name es, Forall P es -> P (Reader.Dir name (Some es))) ->
  forall n, P n.
Proof.
  intros HF HN HD.
  refine (fix IH (n : Reader.node) : P n :=
            match n with
            | Reader.File name => HF name
            | Reader.Dir name None => HN name
            | Reader.Dir name (Some es) =>
                HD name es ((fix all (l : list Reader.node) : Forall P l :=
                               match l with
                               | [] => @List.Forall_nil _ P
                               | dirp :: l' => @List.Forall_cons _ P dirp l' (IH dirp) (all l')
                               end) es)
            end).
Qed.

(** One turn of the loop. *)
Lemma readDir_loop_cons mOutput detect path dirp rest result :
  readDir_loop mOutput detect path (dirp :: rest) result
  = if Reader.is_dots (Reader.d_name dirp)
    then readDir_loop mOutput detect path rest result
    else
      let r := readDir_loop mOutput detect path rest
                 (entry_result mOutput detect path dirp) in
      (fst r,
       (if Reader.is_dir dirp
        then snd (Reader.readDir mOutput detect dirp
                    (path +:+ "/" +:+ Reader.d_name dirp))
        else [(path +:+ "/" +:+ Reader.d_name dirp,
               Reader.output_of mOutput (Reader.d_name dirp))]) ++ snd r).
Proof.
  cbn [readDir_loop]. unfold entry_result.
  destruct (Reader.is_dots (Reader.d_name dirp)); [reflexivity|].
  cbv zeta. destruct (Reader.is_dir dirp).
  - destruct (Reader.readDir _ _ dirp _) as [r calls]. simpl.
    destruct (readDir_loop _ _ _ rest r) as [r' calls']. reflexivity.
  - destruct (readDir_loop _ _ _ rest _) as [r' calls']. reflexivity.
Qed.

Lemma readDir_loop_dots mOutput detect path es result :
  Forall (fun e => Reader.is_dots (Reader.d_name e) = true) es ->
  readDir_loop mOutput detect path es result = (result, []).
Proof.
  induction 1 as [|dirp rest Hdots _ IH]; [reflexivity|].
  rewrite readDir_loop_cons, Hdots. exact IH.
Qed.

Lemma readDir_loop_last mOutput detect path front dirp back : forall result,
  Reader.is_dots (Reader.d_name dirp) = false ->
  Forall (fun e => Reader.is_dots (Reader.d_name e) = true) back ->
  fst (readDir_loop mOutput detect path (front ++ dirp :: back) result)
  = entry_result mOutput detect path dirp.
Proof.
  intros result Hdirp Hback. revert result.
  induction front as [|e front IH]; intros result.
  - cbn [app]. rewrite readDir_loop_cons, Hdirp. cbv zeta. cbn [fst].
    rewrite readDir_loop_dots by exact Hback. reflexivity.
  - cbn [app]. rewrite readDir_loop_cons.
    destruct (Reader.is_dots (Reader.d_name e)); [apply IH|].
    cbv zeta. cbn [fst]. apply IH.
Qed.

(** The result of [readDir] is the result of the last entry of the directory
    that is not "." or "..", a file or a directory, whatever the entries
    before it gave: a face found in an earlier entry is not kept. *)
Theorem readDir_result_is_of_last_entry mOutput detect name front dirp back path :
  Reader.is_dots (Reader.d_name dirp) = false ->
  Forall (fun e => Reader.is_dots (Reader.d_name e) = true) back ->
  fst (Reader.readDir mOutput detect
         (Reader.Dir name (Some (front ++ dirp :: back))) path)
  = entry_result mOutput detect path dirp.
Proof. intros Hdirp Hback. rewrite readDir_entries. apply readDir_loop_last; assumption. Qed.

(** A directory that cannot be opened, or that holds nothing but "." and
    "..", gives [false] and no call of [detect]. *)
Lemma readDir_nothing_to_read mOutput detect name path es :
  Forall (fun e => Reader.is_dots (Reader.d_name e) = true) es ->
  Reader.readDir mOutput detect (Reader.Dir name None) path = (false, []) /\
  Reader.readDir mOutput detect (Reader.Dir name (Some es)) path = (false, []).
Proof.
  intros Hes. split; [reflexivity|]. rewrite readDir_entries. apply readDir_loop_dots, Hes.
Qed.

(** The calls of the loop: those of each entry that is not "." or "..". *)
Lemma readDir_loop_In mOutput detect path call es : forall result,
  In call (snd (readDir_loop mOutput detect path es result)) <->
  exists dirp,
    In dirp es /\ Reader.is_dots (Reader.d_name dirp) = false /\
    In call (if Reader.is_dir dirp
             then snd (Reader.readDir mOutput detect dirp
                         (path +:+ "/" +:+ Reader.d_name dirp))
             else [(path +:+ "/" +:+ Reader.d_name dirp,
                    Reader.output_of mOutput (Reader.d_name dirp))]).
Proof.
  induction es as [|e rest IH]; intros result.
  - split; [intros [] | intros (dirp & [] & _)].
  - rewrite readDir_loop_cons.
    destruct (Reader.is_dots (Reader.d_name e)) eqn:Hdots.
    + rewrite IH. split.
      * intros (dirp & Hin & H). exists dirp. split; [right; exact Hin | exact H].
      * intros (dirp & [<-|Hin] & Hnd & H); [congruence|].
        exists dirp. split; [exact Hin|]. split; assumption.
    + cbv zeta. cbn [snd]. rewrite in_app_iff, IH. split.
      * intros [H|(dirp & Hin & H)].
        -- exists e. split; [left; reflexivity|]. split; assumption.
        -- exists dirp. split; [right; exact Hin | exact H].
      * intros (dirp & [<-|Hin] & Hnd & H); [left; exact H|].
        right. exists dirp. split; [exact Hin|]. split; assumption.
Qed.

(** The calls of [detect] in a walk are those for the files the walk meets,
    in the directory and below it.  The path of a call is made of the
    directories on the way and of the name of the file; its output name is
    [mOutput] itself when that is empty and [mOutput], "/" and the name of
    the file otherwise: the directories on the way are not in it. *)
Theorem readDir_output_names_are_flat mOutput detect n path call :
  In call (snd (Reader.readDir mOutput detect n path)) <->
  exists dirs name,
    walked n dirs name /\
    call = (join path (dirs ++ [name]), Reader.output_of mOutput name).
Proof.
  revert path call.
  induction n as [name0|name0|name0 es IH] using node_tree_ind; intros path call.
  - split; [intros [] | intros (dirs & name & Hw & _); inversion Hw].
  - split; [intros [] | intros (dirs & name & Hw & _); inversion Hw].
  - rewrite readDir_entries, readDir_loop_In. rewrite Forall_forall in IH. split.
    + intros (dirp & Hin & Hdots & Hcall).
      destruct dirp as [name|sub entries]; cbn [Reader.is_dir Reader.d_name] in *.
      * destruct Hcall as [<-|[]]. exists [], name.
        split; [apply walked_file; assumption | reflexivity].
      * apply (IH _ (proj2 (list_elem_of_In _ _) Hin)) in Hcall.
        destruct Hcall as (dirs & name & Hw & ->). exists (sub :: dirs), name.
        split; [eapply walked_dir; eassumption | reflexivity].
    + intros (dirs & name & Hw & ->).
      inversion Hw as [d es' name' Hin Hdots|d es' sub entries dirs' name' Hin Hdots Hsub]; subst.
      * exists (Reader.File name). split; [exact Hin|]. split; [exact Hdots|].
        left. reflexivity.
      * exists (Reader.Dir sub entries). split; [exact Hin|]. split; [exact Hdots|].
        cbn [Reader.is_dir Reader.d_name].
        apply (IH _ (proj2 (list_elem_of_In _ _) Hin)).
        exists dirs', name. split; [exact Hsub | reflexivity].
Qed.

(** ** The corners of a contour *)

Lemma corner_indices_upto vtc (n : nat) :
  Z.of_nat n + 1 <= vtc ->
  let cos := for_from n 2 (fun j cos => cos ++ [(Z.rem j vtc, j - 2, j - 1)]) [] in
  length cos = n /\
  Forall (corner_ok vtc) cos /\
  (forall corner, 1 <= corner <= Z.of_nat n -> exists next prev, In (next, prev, corner) cos).
Proof.
  induction n as [|n IH]; intros Hn; cbv zeta.
  - split; [reflexivity|]. split; [constructor|]. intros corner Hc. simpl in Hc. lia.
  - rewrite for_from_snoc. destruct IH as (Hlen & Hall & Hcover); [lia|].
    set (cos := for_from n 2 _ []) in *.
    split; [rewrite length_app, Hlen; simpl; lia|]. split.
    + apply Forall_app. split; [exact Hall|]. constructor; [|constructor].
      unfold corner_ok. rewrite Z.rem_mod_nonneg by lia.
      replace (2 + Z.of_nat n - 1 + 1) with (2 + Z.of_nat n) by lia.
      repeat split; try lia; apply Z.mod_pos_bound; lia.
    + intros corner Hc. destruct (Z.eq_dec corner (Z.of_nat n + 1)) as [->|Hne].
      * exists (Z.rem (2 + Z.of_nat n) vtc), (2 + Z.of_nat n - 2).
        apply in_or_app. right. left. do 2 f_equal. lia.
      * destruct (Hcover corner) as (next & prev & Hin); [lia|].
        exists next, prev. apply in_or_app. left. exact Hin.
Qed.

(** For a polygon of 4, 5 or 6 vertices, the ones whose corners [find]
    looks at, [find] measures [vtc - 1] corners; every index it passes to
    [approx] is inside the polygon, every corner is measured between its two
    neighbours, and the corners measured are the vertices 1 to [vtc - 1]: the
    corner at vertex 0 is never measured. *)
Theorem find_measures_all_corners_but_vertex_0 vtc :
  4 <= vtc <= 6 ->
  Z.of_nat (length (shapes.corner_indices vtc)) = vtc - 1 /\
  Forall (corner_ok vtc) (shapes.corner_indices vtc) /\
  (forall corner, 1 <= corner < vtc ->
     exists next prev, In (next, prev, corner) (shapes.corner_indices vtc)) /\
  (forall next prev, ~ In (next, prev, 0) (shapes.corner_indices vtc)).
Proof.
  intros Hvtc. unfold shapes.corner_indices.
  destruct (Z.eqb_spec vtc 3) as [|_]; [lia|].
  destruct (Z.leb_spec 4 vtc); [|lia]. destruct (Z.leb_spec vtc 6); [|lia].
  cbn [andb].
  destruct (corner_indices_upto vtc (Z.to_nat (vtc + 1 - 2))) as (Hlen & Hall & Hcover); [lia|].
  split; [rewrite Hlen; lia|]. split; [exact Hall|]. split.
  - intros corner Hc. apply Hcover. lia.
  - intros next prev Hin. rewrite Forall_forall in Hall.
    apply list_elem_of_In, Hall in Hin. unfold corner_ok in Hin. lia.
Qed.

Lemma find_measures_all_corners_but_vertex_0_witness :
  Z.of_nat (length (shapes.corner_indices 4)) = 4 - 1 /\
  Forall (corner_ok 4) (shapes.corner_indices 4) /\
  (forall corner, 1 <= corner < 4 ->
     exists next prev, In (next, prev, corner) (shapes.corner_indices 4)) /\
  (forall next prev, ~ In (next, prev, 0) (shapes.corner_indices 4)).
Proof. apply (find_measures_all_corners_but_vertex_0 4). lia. Defined.

Lemma readDir_result_is_of_last_entry_witness :
  fst (Reader.readDir "" detect_demo
         (Reader.Dir "photos"
            (Some ([Reader.Dir "." None; Reader.File "a.jpg"; Reader.Dir ".." None]
                   ++ Reader.File "b.jpg" :: []))) "photos")
  = entry_result "" detect_demo "photos" (Reader.File "b.jpg").
Proof.
  apply (readDir_result_is_of_last_entry "" detect_demo "photos"
           [Reader.Dir "." None; Reader.File "a.jpg"; Reader.Dir ".." None]
           (Reader.File "b.jpg") [] "photos"); [reflexivity | constructor].
Defined.
